(** * A shallow embedding of the reactive rendering core (arrow.js bundle)

    The development follows the three layers of the bundled library:

    - [Template]: the tagged-template compiler [t] with its inner
      [addExpressions] and [toString];
    - [Reactive]: the observable proxy [r] (with [isR], the [get] and [set]
      traps, [reactiveMerge]), the dependency collector, the watcher [w]
      and the batching [queue];
    - [Partial]: [createPartial] with [add], the renderer and the
      reconciler [_up] over a small model of sibling DOM nodes.

    JavaScript [Map] and [Set] objects iterate in insertion order, and the
    order in which callbacks fire is observable, so they are kept as
    association lists and duplicate-free lists.  Objects with identity that
    are mutated in place (proxies, observer registries, chunks, node arrays)
    live in finite maps from addresses. *)

From Stdlib Require Import ZArith String List DecimalString.
From stdpp Require Import gmap strings list.

Set Warnings "-register-all".

(** ** Primitive values *)

(** JavaScript primitives as far as the library distinguishes them.  Numbers
    are integers, plus [NaN], which is the one number for which [!==] against
    itself holds. *)
Inductive prim :=
| PUndef
| PNull
| PBool (b : bool)
| PNum (z : Z)
| PNaN
| PStr (s : string).

#[global] Instance prim_eq_dec : EqDecision prim.
Proof. solve_decision. Defined.

(** [!x] is [negb (truthy x)]. *)
Definition truthy (p : prim) : bool :=
  match p with
  | PUndef | PNull | PNaN => false
  | PBool b => b
  | PNum z => negb (z =? 0)%Z
  | PStr s => negb (String.eqb s EmptyString)
  end.

Definition Z_to_text (z : Z) : string := NilZero.string_of_int (Z.to_int z).

(** String coercion, as performed by [html + expression] and by assigning
    to [nodeValue]. *)
Definition to_text (p : prim) : string :=
  match p with
  | PUndef => "undefined"
  | PNull => "null"
  | PBool true => "true"
  | PBool false => "false"
  | PNum z => Z_to_text z
  | PNaN => "NaN"
  | PStr s => s
  end.

(** [a === b] on primitives. *)
Definition prim_strict_eq (a b : prim) : bool :=
  match a, b with
  | PNaN, _ | _, PNaN => false
  | _, _ => bool_decide (a = b)
  end.

(** The delimiters that mark expression slots and chunk boundaries. *)
Definition delimiter : string := "➳❍".
Definition bookend : string := "❍⇚".
Definition delimiterComment : string := "<!--" +:+ delimiter +:+ "-->".
Definition bookendComment : string := "<!--" +:+ bookend +:+ "-->".

(** An expression descriptor: the function object pushed by
    [addExpressions].  [e] is the raw expression it was created for, [cur]
    the closure variable [expression] that [_up] overwrites, [observer] the
    closure variable set by [$on] ([None] is the initial empty function). *)
Record descriptor := Descriptor {
  e : nat;
  cur : nat;
  observer : option nat
}.

#[global] Instance descriptor_eq_dec : EqDecision descriptor.
Proof. solve_decision. Defined.

(** ** The template compiler *)

Module Template.

(** A slot value, by the three cases [addExpressions] tells apart: a
    function (this includes nested templates), an array, anything else. *)
Inductive slot :=
| SFun (f : nat)
| SArr (items : list slot)
| SVal (p : prim).

(** [expSlots[i] !== undefined] *)
Definition is_undefined (s : slot) : bool :=
  match s with
  | SVal PUndef => true
  | _ => false
  end.

(** The template function object returned by [t]: its arguments and the
    closure variables [str] and [expressions], and the property [_k]. *)
Record template := Tpl {
  strings : list string;
  expSlots : list slot;
  str : string;
  expressions : list descriptor;
  _k : Z
}.

Definition t (strings : list string) (expSlots : list slot) : template :=
  {| strings := strings; expSlots := expSlots; str := EmptyString; expressions := []; _k := 0 |}.

(** [addExpressions(expression, html)], with the captured array
    [expressions] threaded next to the markup. *)
Fixpoint addExpressions (expression : slot) (acc : list descriptor * string)
  : list descriptor * string :=
  match expression with
  | SFun f =>
      (acc.1 ++ [{| e := f; cur := f; observer := None |}], acc.2 +:+ delimiterComment)
  | SArr items =>
      fold_left (fun acc exp => addExpressions exp acc) items acc
  | SVal p => (acc.1, acc.2 +:+ to_text p)
  end.

(** [strings.reduce(function interlaceTemplate(html, strVal, i) ..., '')]:
    the remaining strings, the index of the first of them. *)
Fixpoint interlaceTemplate (slots : list slot) (strs : list string) (i : nat)
  (acc : list descriptor * string) : list descriptor * string :=
  match strs with
  | [] => acc
  | strVal :: rest =>
      let html := acc.2 +:+ strVal in
      let acc' :=
        match slots !! i with
        | Some s => if is_undefined s then (acc.1, html)
                    else addExpressions s (acc.1, html)
        | None => (acc.1, html)
        end in
      interlaceTemplate slots rest (S i) acc'
  end.

Definition is_empty_template (tpl : template) : bool :=
  (length (expSlots tpl) =? 0)%nat && bool_decide (strings tpl = [EmptyString]).

(** [toString()]: memoised in [str]; returns the markup and the updated
    template object. *)
Definition toString (tpl : template) : string * template :=
  if negb (String.eqb (str tpl) EmptyString) then (str tpl, tpl)
  else if is_empty_template tpl then
    ("<!---->",
     {| strings := strings tpl; expSlots := expSlots tpl; str := "<!---->";
        expressions := expressions tpl; _k := _k tpl |})
  else
    let r := interlaceTemplate (expSlots tpl) (strings tpl) 0 (expressions tpl, EmptyString) in
    (r.2,
     {| strings := strings tpl; expSlots := expSlots tpl; str := r.2;
        expressions := r.1; _k := _k tpl |}).

(** [template._h()] evaluates [toString()] first, then reads
    [expressions] and [_k]. *)
Definition _h (tpl : template) : (string * list descriptor * Z) * template :=
  let r := toString tpl in
  ((r.1, expressions r.2, _k r.2), r.2).

Definition key (k : Z) (tpl : template) : template :=
  {| strings := strings tpl; expSlots := expSlots tpl; str := str tpl;
     expressions := expressions tpl; _k := k |}.

(** *** What a slot contributes, read compositionally *)

(** The text a slot adds to the markup. *)
Fixpoint slot_markup (s : slot) : string :=
  match s with
  | SFun _ => delimiterComment
  | SArr items => fold_right (fun x acc => slot_markup x +:+ acc) EmptyString items
  | SVal p => to_text p
  end.

(** The functions a slot adds to [expressions], left to right. *)
Fixpoint slot_funs (s : slot) : list nat :=
  match s with
  | SFun f => [f]
  | SArr items => fold_right (fun x acc => slot_funs x ++ acc) [] items
  | SVal _ => []
  end.

(** A top-level slot: a missing or [undefined] slot is skipped. *)
Definition top_markup (o : option slot) : string :=
  match o with
  | Some s => if is_undefined s then EmptyString else slot_markup s
  | None => EmptyString
  end.

Definition top_funs (o : option slot) : list nat :=
  match o with
  | Some s => if is_undefined s then [] else slot_funs s
  | None => []
  end.

Fixpoint markup_from (slots : list slot) (strs : list string) (i : nat) : string :=
  match strs with
  | [] => EmptyString
  | strVal :: rest => strVal +:+ top_markup (slots !! i) +:+ markup_from slots rest (S i)
  end.

Fixpoint funs_from (slots : list slot) (strs : list string) (i : nat) : list nat :=
  match strs with
  | [] => []
  | _ :: rest => top_funs (slots !! i) ++ funs_from slots rest (S i)
  end.

Definition fresh_descriptor (f : nat) : descriptor :=
  {| e := f; cur := f; observer := None |}.

(** Induction on slots that reaches inside arrays. *)
Section slot_induction.
Variable P : slot -> Prop.
Hypothesis Hfun : forall f, P (SFun f).
Hypothesis Harr : forall items, Forall P items -> P (SArr items).
Hypothesis Hval : forall p, P (SVal p).

Fixpoint slot_nested_ind (s : slot) : P s :=
  match s with
  | SFun f => Hfun f
  | SArr items =>
      Harr items
        ((fix go (l : list slot) : Forall P l :=
            match l with
            | [] => @List.Forall_nil slot P
            | x :: rest => @List.Forall_cons slot P x rest (slot_nested_ind x) (go rest)
            end) items)
  | SVal p => Hval p
  end.
End slot_induction.

End Template.

(** ** Insertion-ordered maps and sets *)

(** A JavaScript [Map] as an association list in insertion order, a [Set]
    as a list without repetitions in insertion order. *)
Section ordered.
Context {K V : Type} `{EqDecision K}.

Fixpoint alist_get (k : K) (l : list (K * V)) : option V :=
  match l with
  | [] => None
  | (k', v) :: rest => if decide (k = k') then Some v else alist_get k rest
  end.

(** [map.set(k, v)]: an existing key keeps its place. *)
Fixpoint alist_set (k : K) (v : V) (l : list (K * V)) : list (K * V) :=
  match l with
  | [] => [(k, v)]
  | (k', v') :: rest =>
      if decide (k = k') then (k, v) :: rest else (k', v') :: alist_set k v rest
  end.

Fixpoint alist_del (k : K) (l : list (K * V)) : list (K * V) :=
  match l with
  | [] => []
  | (k', v') :: rest =>
      if decide (k = k') then rest else (k', v') :: alist_del k rest
  end.

Definition set_has (x : K) (s : list K) : bool := bool_decide (x ∈ s).

Definition set_add (x : K) (s : list K) : list K :=
  if set_has x s then s else s ++ [x].

Definition set_del (x : K) (s : list K) : list K :=
  filter (fun y => y ≠ x) s.
End ordered.

(** ** The observable data layer, the collector and the scheduler *)

Module Reactive.

(** Values.  A plain object or array literal is a tree of its enumerable
    own properties in enumeration order, labelled with an identity [id]
    (compared by [===]); a reactive proxy is a reference into the store. *)
Inductive jsval :=
| VPrim (p : prim)
| VFun (f : nat)
| VObj (id : nat) (arr : bool) (props : list (string * jsval))
| VRef (a : nat).

Definition undefined : jsval := VPrim PUndef.

(** [typeof v === 'object'] -- true of [null]. *)
Definition typeof_object (v : jsval) : bool :=
  match v with
  | VPrim PNull | VObj _ _ _ | VRef _ => true
  | _ => false
  end.

Definition is_null (v : jsval) : bool :=
  match v with
  | VPrim PNull => true
  | _ => false
  end.

Definition js_truthy (v : jsval) : bool :=
  match v with
  | VPrim p => truthy p
  | _ => true
  end.

(** [a === b] *)
Definition strict_eq (a b : jsval) : bool :=
  match a, b with
  | VPrim p, VPrim q => prim_strict_eq p q
  | VFun f, VFun g => (f =? g)%nat
  | VObj i _ _, VObj j _ _ => (i =? j)%nat
  | VRef x, VRef y => (x =? y)%nat
  | _, _ => false
  end.

(** The keys [Reflect.has(depProps, key)] answers true for: the five own
    keys of [depProps] and what it inherits from [Object.prototype]. *)
Definition depProps_keys : list string :=
  ["$on"; "$off"; "_em"; "_st"; "_p";
   "constructor"; "hasOwnProperty"; "isPrototypeOf"; "propertyIsEnumerable";
   "toString"; "toLocaleString"; "valueOf"; "__proto__";
   "__defineGetter__"; "__defineSetter__"; "__lookupGetter__"; "__lookupSetter__"].

Definition depProps_has (key : string) : bool := bool_decide (key ∈ depProps_keys).

(** [isR(obj)]: an object, not [null], with a function-valued [$on].  Every
    proxy made by [r] answers [$on] from its [depProps]. *)
Definition isR (obj : jsval) : bool :=
  match obj with
  | VRef _ => true
  | VObj _ _ props =>
      match alist_get "$on" props with
      | Some (VFun _) => true
      | _ => false
      end
  | _ => false
  end.

(** A callback registered with [$on]: the [queuedCallFn] of a watcher, or
    some other function, which the model only records being called. *)
Inductive callback :=
| CbQueued (w : nat)
| CbExt (k : nat).

#[global] Instance callback_eq_dec : EqDecision callback.
Proof. solve_decision. Defined.

(** The pair of maps [observers] / [observerProperties] of one [r] call.
    After a state transfer two proxies hold the same pair, so the pair has
    an address of its own. *)
Record registry := Registry {
  observers : list (string * list callback);
  observerProperties : list (callback * list string)
}.

(** What one call of [r] closes over. *)
Record proxy := Proxy {
  proxySource : list (string * jsval);
  isArray : bool;
  reg : nat;
  _p : option (string * nat)
}.

(** A watcher expression: a pure read of reactive data. *)
Inductive expr :=
| EConst (v : jsval)
| EGet (obj : expr) (p : string)
| ECond (c yes no : expr)
| EAdd (x y : expr)
| ESeq (x y : expr).

(** The closure of one [w(fn, after)] call. *)
Record watch := Watch {
  fn : expr;
  after : bool;
  trackingId : nat;
  currentDeps : list (nat * list string)
}.

(** A trace of what the library calls, kept next to the state. *)
Inductive event :=
| EvNotify (c : callback) (newValue oldValue : jsval)
| EvEval (w : nat) (value : jsval)
| EvOff (w : nat) (a : nat) (p : string)
| EvOn (w : nat) (a : nat) (p : string)
| EvAfter (w : nat) (value : jsval)
| EvTick (k : nat).

(** A callback handed to [setTimeout]. *)
Inductive task := ExecuteQueue.

Record state := State {
  proxies : gmap nat proxy;
  regs : gmap nat registry;
  next : nat;
  dependencyCollector : list (nat * list (nat * list string));
  queueStack : list nat;
  nextTicks : list nat;
  timers : list task;
  watches : gmap nat watch;
  log : list event
}.

Definition empty_state : state :=
  {| proxies := ∅; regs := ∅; next := 0; dependencyCollector := [];
     queueStack := []; nextTicks := []; timers := []; watches := ∅; log := [] |}.

Definition with_proxies (f : gmap nat proxy -> gmap nat proxy) (st : state) : state :=
  {| proxies := f (proxies st); regs := regs st; next := next st;
     dependencyCollector := dependencyCollector st; queueStack := queueStack st;
     nextTicks := nextTicks st; timers := timers st; watches := watches st;
     log := log st |}.

Definition with_regs (f : gmap nat registry -> gmap nat registry) (st : state) : state :=
  {| proxies := proxies st; regs := f (regs st); next := next st;
     dependencyCollector := dependencyCollector st; queueStack := queueStack st;
     nextTicks := nextTicks st; timers := timers st; watches := watches st;
     log := log st |}.

Definition with_next (n : nat) (st : state) : state :=
  {| proxies := proxies st; regs := regs st; next := n;
     dependencyCollector := dependencyCollector st; queueStack := queueStack st;
     nextTicks := nextTicks st; timers := timers st; watches := watches st;
     log := log st |}.

Definition with_collector
  (f : list (nat * list (nat * list string)) -> list (nat * list (nat * list string)))
  (st : state) : state :=
  {| proxies := proxies st; regs := regs st; next := next st;
     dependencyCollector := f (dependencyCollector st); queueStack := queueStack st;
     nextTicks := nextTicks st; timers := timers st; watches := watches st;
     log := log st |}.

Definition with_sched (q : list nat) (nt : list nat) (ts : list task) (st : state) : state :=
  {| proxies := proxies st; regs := regs st; next := next st;
     dependencyCollector := dependencyCollector st; queueStack := q;
     nextTicks := nt; timers := ts; watches := watches st;
     log := log st |}.

Definition with_watches (f : gmap nat watch -> gmap nat watch) (st : state) : state :=
  {| proxies := proxies st; regs := regs st; next := next st;
     dependencyCollector := dependencyCollector st; queueStack := queueStack st;
     nextTicks := nextTicks st; timers := timers st; watches := f (watches st);
     log := log st |}.

Definition emit_event (ev : event) (st : state) : state :=
  {| proxies := proxies st; regs := regs st; next := next st;
     dependencyCollector := dependencyCollector st; queueStack := queueStack st;
     nextTicks := nextTicks st; timers := timers st; watches := watches st;
     log := log st ++ [ev] |}.

(** *** Scheduler: [queue(fn)] *)



(** *** Registries: [dep], [$on], [$off], [_em] *)

(** [dep(a)(p, c)] with [a = 'add'] ([add = true]) or ['delete']. *)
Definition dep (add : bool) (p : string) (c : callback) (rg : registry) : registry :=
  let obs := default [] (alist_get p (observers rg)) in
  let props := default [] (alist_get c (observerProperties rg)) in
  {| observers :=
       alist_set p (if add then set_add c obs else set_del c obs) (observers rg);
     observerProperties :=
       alist_set c (if add then set_add p props else set_del p props)
         (observerProperties rg) |}.

(** [proxy.$on(p, c)] / [proxy.$off(p, c)] *)
Definition proxy_dep (add : bool) (a : nat) (p : string) (c : callback) (st : state) : state :=
  match proxies st !! a with
  | Some px => with_regs (alter (dep add p c) (reg px)) st
  | None => st
  end.



(** *** The collector: [addDep] *)

Definition addDep (a : nat) (property : string) (st : state) : state :=
  with_collector
    (map (fun tr : nat * list (nat * list string) =>
            (tr.1, alist_set a (set_add property (default [] (alist_get a tr.2))) tr.2)))
    st.

(** A loop whose body may throw: the first [None] ends it. *)
Definition option_fold {B : Type} (step : state -> B -> option state) (l : list B)
  (st : state) : option state :=
  fold_left (fun acc b => match acc with Some st => step st b | None => None end)
    l (Some st).

(** *** The proxy traps *)

(** The [get] trap for a data property.  [None]: the key is one of the
    internal ones, whose values are not data. *)
Definition get_trap (a : nat) (p : string) (st : state) : option (jsval * state) :=
  match proxies st !! a with
  | Some px =>
      if depProps_has p then None
      else Some (default undefined (alist_get p (proxySource px)), addDep a p st)
  | None => None
  end.


Definition set_parent (a : nat) (p : option (string * nat)) (st : state) : state :=
  with_proxies
    (alter (fun px => {| proxySource := proxySource px; isArray := isArray px;
                         reg := reg px; _p := p |}) a) st.


(** The argument [state] of [r]: [state.o] and [state.op] (one registry),
    and [state.p]. *)
Definition rstate : Type := nat * option (string * nat).

(** [children.map((c) => { proxy[c]._p = [c, proxy] })]: reading [proxy[c]]
    goes through the [get] trap. *)
Definition adopt_children (a : nat) (children : list string) (st : state) : state :=
  fold_left
    (fun st c =>
       match get_trap a c st with
       | Some (VRef b, st') => set_parent b (Some (c, a)) st'
       | Some (_, st') => st'
       | None => st
       end) children st.

(** [observers = state.o || new Map()] (and [state.op] with it). *)
Definition r_registry (rs : option rstate) (st : state) : nat * state :=
  match rs with
  | Some (rid, _) => (rid, st)
  | None =>
      (next st,
       with_next (S (next st))
         (with_regs (insert (next st) {| observers := []; observerProperties := [] |}) st))
  end.

(** The end of [r]: [new Proxy(proxySource, ...)], [state.p], and the
    parent links of the children. *)
Definition r_finish (rs : option rstate) (rid : nat) (arr : bool)
  (acc : list (string * jsval) * list string * state) : jsval * state :=
  let '(src, children, st) := acc in
  let a := next st in
  let st :=
    with_next (S a)
      (with_proxies
         (insert a {| proxySource := src; isArray := arr; reg := rid;
                      _p := match rs with Some (_, p) => p | None => None end |}) st) in
  (VRef a, adopt_children a children st).

(** [r(data, state = {})].  The inner [copy] is the [for (const property in
    data)] loop filling [proxySource] and [children]. *)
Fixpoint r (data : jsval) (rs : option rstate) (st : state) {struct data} : jsval * state :=
  if isR data || negb (typeof_object data) then (data, st)
  else
    let '(rid, st) := r_registry rs st in
    match data with
    | VObj _ arr props =>
        r_finish rs rid arr
          ((fix copy (props : list (string * jsval))
                (acc : list (string * jsval) * list string * state) {struct props} :=
              match props with
              | [] => acc
              | (property, entry) :: rest =>
                  let '(src, children, st) := acc in
                  if typeof_object entry && negb (is_null entry) then
                    let '(v, st) :=
                      if negb (isR entry) then r entry None st else (entry, st) in
                    copy rest (alist_set property v src, children ++ [property], st)
                  else copy rest (alist_set property entry src, children, st)
              end) props ([], [], st))
    | _ => r_finish rs rid false ([], [], st)
    end.

(** The [for ... in] loop of [r] as a function of its own; [r] on an
    object unfolds to it. *)
Fixpoint copy_properties (props : list (string * jsval))
  (acc : list (string * jsval) * list string * state) {struct props}
  : list (string * jsval) * list string * state :=
  match props with
  | [] => acc
  | (property, entry) :: rest =>
      let '(src, children, st) := acc in
      if typeof_object entry && negb (is_null entry) then
        let '(v, st) :=
          if negb (isR entry) then r entry None st else (entry, st) in
        copy_properties rest (alist_set property v src, children ++ [property], st)
      else copy_properties rest (alist_set property entry src, children, st)
  end.

(** [reactiveMerge(reactiveTarget, reactiveSource)] for two proxies. *)
Definition reactiveMerge (target source : nat) (st : state) : state :=
  match proxies st !! source with
  | Some px =>
      let st :=
        match regs st !! reg px with
        | Some rg =>
            fold_left
              (fun st (entry : string * list callback) =>
                 fold_left (fun st c => proxy_dep true target entry.1 c st) entry.2 st)
              (observers rg) st
        | None => st
        end in
      match _p px with
      | Some p => set_parent target (Some p) st
      | None => st
      end
  | None => st
  end.




(** *** Watchers: [w] and its [callFn] *)

(** [ToNumber] on primitives other than strings; [None] is [NaN]. *)
Definition to_number (p : prim) : option Z :=
  match p with
  | PNum z => Some z
  | PNull | PBool false => Some 0%Z
  | PBool true => Some 1%Z
  | _ => None
  end.

Definition is_string (p : prim) : bool :=
  match p with
  | PStr _ => true
  | _ => false
  end.

(** [x + y] on primitives: concatenation as soon as one side is a string,
    numeric addition otherwise. *)
Definition js_add (x y : prim) : prim :=
  if is_string x || is_string y then PStr (to_text x +:+ to_text y)
  else match to_number x, to_number y with
       | Some a, Some b => PNum (a + b)
       | _, _ => PNaN
       end.

(** Evaluating a watcher expression.  [None]: reading a property of
    [undefined] or [null] throws; adding objects, which calls their
    conversion methods, is left out. *)
Fixpoint eval (ex : expr) (st : state) : option (jsval * state) :=
  match ex with
  | EConst v => Some (v, st)
  | EGet obj p =>
      match eval obj st with
      | Some (VRef a, st) => get_trap a p st
      | Some (VObj _ _ props, st) => Some (default undefined (alist_get p props), st)
      | Some (VFun _, st) => Some (undefined, st)
      | Some (VPrim PUndef, _) | Some (VPrim PNull, _) => None
      | Some (VPrim _, st) => Some (undefined, st)
      | None => None
      end
  | ECond c yes no =>
      match eval c st with
      | Some (v, st) => if js_truthy v then eval yes st else eval no st
      | None => None
      end
  | EAdd x y =>
      match eval x st with
      | Some (VPrim a, st) =>
          match eval y st with
          | Some (VPrim b, st) => Some (VPrim (js_add a b), st)
          | _ => None
          end
      | _ => None
      end
  | ESeq x y =>
      match eval x st with
      | Some (_, st) => eval y st
      | None => None
      end
  end.

(** The first loop of [callFn]: for every proxy of [currentDeps], drop the
    properties read again and [$off] the others. *)
Definition unobserve (w : nat) (current newDeps : list (nat * list string)) (st : state)
  : state :=
  fold_left
    (fun st (entry : nat * list string) =>
       let propertiesToUnobserve :=
         match alist_get entry.1 newDeps with
         | Some newProperties =>
             fold_left (fun s prop => set_del prop s) newProperties entry.2
         | None => entry.2
         end in
       fold_left
         (fun st prop =>
            emit_event (EvOff w entry.1 prop) (proxy_dep false entry.1 prop (CbQueued w) st))
         propertiesToUnobserve st)
    current st.

(** The second loop: [$on] every property read. *)
Definition observe (w : nat) (newDeps : list (nat * list string)) (st : state) : state :=
  fold_left
    (fun st (entry : nat * list string) =>
       fold_left
         (fun st prop =>
            emit_event (EvOn w entry.1 prop) (proxy_dep true entry.1 prop (CbQueued w) st))
         entry.2 st)
    newDeps st.

Definition set_currentDeps (w : nat) (deps : list (nat * list string)) (st : state) : state :=
  with_watches
    (alter (fun wt => {| fn := fn wt; after := after wt; trackingId := trackingId wt;
                         currentDeps := deps |}) w) st.

(** [callFn()] of watcher [w]. *)
Definition callFn (w : nat) (st : state) : option (jsval * state) :=
  match watches st !! w with
  | None => None
  | Some wt =>
      let st := with_collector (alist_set (trackingId wt) []) st in
      match eval (fn wt) st with
      | None => None
      | Some (value, st) =>
          let st := emit_event (EvEval w value) st in
          let newDeps := default [] (alist_get (trackingId wt) (dependencyCollector st)) in
          let st := with_collector (alist_del (trackingId wt)) st in
          let st := unobserve w (currentDeps wt) newDeps st in
          let st := observe w newDeps st in
          let st := set_currentDeps w newDeps st in
          if after wt then Some (value, emit_event (EvAfter w value) st)
          else Some (value, st)
      end
  end.

(** [w(fn, after)]: the new watcher's id and the state after its first
    evaluation.  An [expr] carries no [$on], so the branch for reactive
    functions is not taken. *)
Definition w (f : expr) (aft : bool) (st : state) : option (nat * jsval * state) :=
  let id := next st in
  let st := with_next (S id) st in
  let st := with_collector (fun c => if bool_decide (id ∈ map fst c) then c
                                     else alist_set id [] c) st in
  let st := with_watches (insert id {| fn := f; after := aft; trackingId := id;
                                       currentDeps := [] |}) st in
  match callFn id st with
  | Some (v, st) => Some (id, v, st)
  | None => None
  end.

(** [executeQueue()] *)
Definition executeQueue (st : state) : option state :=
  let queue := queueStack st in
  let ticks := nextTicks st in
  let st := with_sched [] [] (timers st) st in
  match option_fold (fun st w => snd <$> callFn w st) queue st with
  | None => None
  | Some st =>
      let st := fold_left (fun st k => emit_event (EvTick k) st) ticks st in
      if (length (queueStack st) =? 0)%nat then Some st
      else Some (with_sched (queueStack st) (nextTicks st) (timers st ++ [ExecuteQueue]) st)
  end.

(** The host runs the oldest pending timer callback. *)
Definition run_task (st : state) : option state :=
  match timers st with
  | [] => Some st
  | ExecuteQueue :: rest =>
      executeQueue (with_sched (queueStack st) (nextTicks st) rest st)
  end.

Fixpoint run_tasks (n : nat) (st : state) : option state :=
  match n with
  | O => Some st
  | S n =>
      match run_task st with
      | Some st => run_tasks n st
      | None => None
      end
  end.



(** *** Notions used to state the properties *)

(** Induction on values that reaches inside object literals. *)
Section jsval_induction.
Variable P : jsval -> Prop.
Hypothesis Hprim : forall p, P (VPrim p).
Hypothesis Hfun : forall f, P (VFun f).
Hypothesis Hobj : forall id arr props, Forall (fun kv => P kv.2) props -> P (VObj id arr props).
Hypothesis Href : forall a, P (VRef a).

Fixpoint jsval_nested_ind (v : jsval) : P v :=
  match v with
  | VPrim p => Hprim p
  | VFun f => Hfun f
  | VObj id arr props =>
      Hobj id arr props
        ((fix go (l : list (string * jsval)) : Forall (fun kv => P kv.2) l :=
            match l with
            | [] => @List.Forall_nil _ _
            | kv :: rest =>
                @List.Forall_cons _ (fun kv => P kv.2) kv rest
                  (jsval_nested_ind kv.2) (go rest)
            end) props)
  | VRef a => Href a
  end.
End jsval_induction.

(** The callbacks registered for property [p] of proxy [a], in the order
    in which [_em] calls them. *)
Definition subscribers (a : nat) (p : string) (st : state) : list callback :=
  match proxies st !! a with
  | Some px =>
      match regs st !! reg px with
      | Some rg => default [] (alist_get p (observers rg))
      | None => []
      end
  | None => []
  end.

(** The observer registry entries ([registry], property) that hold the
    callback of watcher [w]. *)
Definition holds (rid : nat) (p : string) (w : nat) (st : state) : Prop :=
  exists rg cs, regs st !! rid = Some rg
                /\ alist_get p (observers rg) = Some cs
                /\ CbQueued w ∈ cs.









Definition is_after_of (w : nat) (ev : event) : bool :=
  match ev with
  | EvAfter w' _ => (w' =? w)%nat
  | _ => false
  end.




(** [st'] differs from [st] at most in the store of proxies and
    registries, the allocation counter and the collector. *)
Definition same_sched (st st' : state) : Prop :=
  log st' = log st /\ queueStack st' = queueStack st /\ nextTicks st' = nextTicks st
  /\ timers st' = timers st /\ watches st' = watches st.






(** The callbacks a registry holds for a property. *)
Definition members (p : string) (rg : registry) : list callback :=
  default [] (alist_get p (observers rg)).

(** Callback [c] is registered for property [p] in the registry [rid]. *)
Definition member (c : callback) (rid : nat) (p : string) (rs : gmap nat registry) : Prop :=
  exists rg, rs !! rid = Some rg /\ c ∈ members p rg.






(** *** Sample data for the examples *)

Definition sample_object : jsval :=
  VObj 1 false [("count", VPrim (PNum 0));
                ("user", VObj 2 false [("name", VPrim (PStr "ada"))])].










(** A store [{flag: true, a: {x: 1}}], a second reactive object
    [{x: 2}], and a watcher of [flag ? a.x : 0]; then one turn that clears
    [flag] and assigns the second object to [a] -- a state transfer -- and
    the flush. *)
Definition flag_object : jsval :=
  VObj 1 false [("flag", VPrim (PBool true)); ("a", VObj 2 false [("x", VPrim (PNum 1))])].

Definition other_object : jsval := VObj 3 false [("x", VPrim (PNum 2))].

Definition flag_expr : expr :=
  ECond (EGet (EConst (VRef 3)) "flag")
        (EGet (EGet (EConst (VRef 3)) "a") "x")
        (EConst (VPrim (PNum 0))).

Definition flag_watched : state :=
  default empty_state
    (snd <$> w flag_expr false
               (r other_object None (r flag_object None empty_state).2).2).




(** *** Further notions: the reverse index, evaluation order *)

(** The properties [observerProperties] lists for a callback. *)
Definition watched_by (c : callback) (rg : registry) : list string :=
  default [] (alist_get c (observerProperties rg)).

(** [observerProperties] is the reverse of [observers]. *)
Definition mirrored (rg : registry) : Prop :=
  forall p c, c ∈ members p rg <-> p ∈ watched_by c rg.


(** A registry with one subscriber, for the examples. *)
Definition sample_registry : registry :=
  dep true "name" (CbExt 1) {| observers := []; observerProperties := [] |}.


(** *** Object literals and what [r] makes of them *)

(** A key of an array as [for ... in] lists it: an index, written in
    decimal digits. *)
Definition is_index (k : string) : bool :=
  negb (String.eqb k EmptyString)
  && forallb (fun c => (48 <=? Ascii.nat_of_ascii c)%nat && (Ascii.nat_of_ascii c <=? 57)%nat)
       (list_ascii_of_string k).

(** A plain data literal: objects and arrays of primitives, functions and
    further literals; nothing reactive inside, no key twice, no key that
    the proxy answers from its internal properties, and array keys are
    indices. *)
Fixpoint literal (v : jsval) : bool :=
  match v with
  | VPrim _ | VFun _ => true
  | VRef _ => false
  | VObj id arr props =>
      (if arr then forallb is_index (map fst props) else true)
      && negb (isR (VObj id arr props))
      && bool_decide (NoDup (map fst props))
      && forallb (fun k => negb (depProps_has k)) (map fst props)
      && (fix all (l : list (string * jsval)) : bool :=
            match l with
            | [] => true
            | (_, x) :: rest => literal x && all rest
            end) props
  end.

(** The value is the proxy at address [b]. *)
Definition points_to (o : option jsval) (b : nat) : bool :=
  match o with
  | Some (VRef b0) => (b0 =? b)%nat
  | _ => false
  end.

(** The proxy with its parent link replaced. *)
Definition with_parent (p : option (string * nat)) (px : proxy) : proxy :=
  {| proxySource := proxySource px; isArray := isArray px; reg := reg px; _p := p |}.

(** What [r] gives for an object literal: the root proxy and its
    children. *)
Definition wrapped (arr : bool) (props : list (string * jsval)) (rs : option rstate)
  (st : state) (res : jsval * state) : Prop :=
  exists a px,
    res.1 = VRef a
    /\ next st <= a < next res.2
    /\ proxies res.2 !! a = Some px
    /\ isArray px = arr
    /\ map fst (proxySource px) = map fst props
    /\ _p px = match rs with Some (_, p) => p | None => None end
    /\ reg px = match rs with Some (rid, _) => rid | None => next st end
    /\ forall k vk, (k, vk) ∈ props ->
         match vk with
         | VObj _ arrk propsk =>
             exists b pb,
               alist_get k (proxySource px) = Some (VRef b)
               /\ next st <= b < a
               /\ proxies res.2 !! b = Some pb
               /\ isArray pb = arrk
               /\ map fst (proxySource pb) = map fst propsk
               /\ _p pb = Some (k, a)
         | _ => alist_get k (proxySource px) = Some vk
         end.

(** What the induction on the literal carries: [r] allocates upwards and
    leaves what was in the store alone. *)
Definition r_ok (v : jsval) : Prop :=
  forall rs st,
    literal v = true ->
    next st <= next (r v rs st).2
    /\ (forall a, a < next st -> proxies (r v rs st).2 !! a = proxies st !! a)
    /\ (forall i, i < next st -> regs (r v rs st).2 !! i = regs st !! i)
    /\ match v with
       | VObj _ arr props => wrapped arr props rs st (r v rs st)
       | _ => True
       end.

(** The invariant of the [for ... in] loop of [r] once [done] has been
    copied. *)
Definition copy_inv (n0 : nat) (done src : list (string * jsval)) (children : list string)
  (st : state) : Prop :=
  n0 <= next st
  /\ map fst src = map fst done
  /\ (forall k vk, (k, vk) ∈ done ->
        match vk with
        | VObj _ arrk propsk =>
            exists b pb,
              alist_get k src = Some (VRef b)
              /\ proxies st !! b = Some pb
              /\ isArray pb = arrk
              /\ map fst (proxySource pb) = map fst propsk
              /\ k ∈ children
        | _ => alist_get k src = Some vk
        end)
  /\ (forall k b, alist_get k src = Some (VRef b) -> n0 <= b < next st)
  /\ (forall k1 k2 b, alist_get k1 src = Some (VRef b) -> alist_get k2 src = Some (VRef b) ->
                      k1 = k2)
  /\ (forall c, c ∈ children -> c ∈ map fst done).



End Reactive.

(** ** Partials: chunks, rendering and reconciliation *)

Module Partial.

(** What [partial.add] is given: a template, seen through the triple
    [tpl._h()] returns (markup, expression descriptors, key), or any other
    value.  Keys are integers; [0], like a key never set, counts as no key. *)
Inductive tplval :=
| TVal (p : prim)
| TTpl (markup : string) (exps : list nat) (k : Z).

Definition isTpl (v : tplval) : bool :=
  match v with
  | TTpl _ _ _ => true
  | TVal _ => false
  end.

Inductive node_kind := KText | KComment | KElement.

(** A DOM node: its kind, its [nodeValue], and the group symbols defined
    on it by [assignDomChunks]. *)
Record node := Node {
  kind : node_kind;
  nodeValue : string;
  tags : list nat
}.

(** A chunk object.  [dom] is the address of its node array: arrays are
    compared by identity ([prev.dom !== chunk.dom]) and pushed to in place. *)
Record chunk := Chunk {
  html : string;
  exp : list nat;
  dom : nat;
  tpl : tplval;
  key : Z
}.

Inductive pevent :=
| EvUp (d : nat) (expression : nat)
| EvObserver (d : nat) (obs : nat).

(** The document as far as a partial sees it: the child list of the parent
    its nodes live in, and the stores of nodes, descriptors, chunk objects
    and node arrays. *)
Record world := World {
  nodes : gmap nat node;
  children : list nat;
  descs : gmap nat descriptor;
  chunk_store : gmap nat chunk;
  dom_store : gmap nat (list nat);
  fresh : nat;
  trace : list pevent
}.

(** The closure variables of one [createPartial(group)] call, with the
    property [l]. *)
Record partial := PartialState {
  p_html : string;
  p_expressions : list nat;
  chunks : list nat;
  previousChunks : list nat;
  keyedChunks : list (Z * nat);
  toRemove : list nat;
  l : nat;
  group : nat
}.

Definition createPartial (group : nat) : partial :=
  {| p_html := EmptyString; p_expressions := []; chunks := []; previousChunks := [];
     keyedChunks := []; toRemove := []; l := 0; group := group |}.

(** A top-level node produced by parsing markup: a bookend comment, or
    anything else. *)
Inductive parsed :=
| PBookend
| PNode (k : node_kind) (value : string).

Definition with_nodes (f : gmap nat node -> gmap nat node) (wd : world) : world :=
  {| nodes := f (nodes wd); children := children wd; descs := descs wd;
     chunk_store := chunk_store wd; dom_store := dom_store wd; fresh := fresh wd;
     trace := trace wd |}.

Definition with_children (f : list nat -> list nat) (wd : world) : world :=
  {| nodes := nodes wd; children := f (children wd); descs := descs wd;
     chunk_store := chunk_store wd; dom_store := dom_store wd; fresh := fresh wd;
     trace := trace wd |}.

Definition with_descs (f : gmap nat descriptor -> gmap nat descriptor) (wd : world) : world :=
  {| nodes := nodes wd; children := children wd; descs := f (descs wd);
     chunk_store := chunk_store wd; dom_store := dom_store wd; fresh := fresh wd;
     trace := trace wd |}.

Definition with_chunk_store (f : gmap nat chunk -> gmap nat chunk) (wd : world) : world :=
  {| nodes := nodes wd; children := children wd; descs := descs wd;
     chunk_store := f (chunk_store wd); dom_store := dom_store wd; fresh := fresh wd;
     trace := trace wd |}.

Definition with_dom_store (f : gmap nat (list nat) -> gmap nat (list nat)) (wd : world)
  : world :=
  {| nodes := nodes wd; children := children wd; descs := descs wd;
     chunk_store := chunk_store wd; dom_store := f (dom_store wd); fresh := fresh wd;
     trace := trace wd |}.

Definition with_fresh (n : nat) (wd : world) : world :=
  {| nodes := nodes wd; children := children wd; descs := descs wd;
     chunk_store := chunk_store wd; dom_store := dom_store wd; fresh := n;
     trace := trace wd |}.

Definition record (ev : pevent) (wd : world) : world :=
  {| nodes := nodes wd; children := children wd; descs := descs wd;
     chunk_store := chunk_store wd; dom_store := dom_store wd; fresh := fresh wd;
     trace := trace wd ++ [ev] |}.

(** *** DOM operations on the sibling list *)

Definition in_list (n : nat) (ns : list nat) : bool := bool_decide (n ∈ ns).

Definition without (ns : list nat) (kids : list nat) : list nat :=
  filter (fun k => k ∉ ns) kids.

(** [node.nextSibling] *)
Fixpoint nextSibling (n : nat) (kids : list nat) : option nat :=
  match kids with
  | [] => None
  | k :: rest => if (k =? n)%nat then head rest else nextSibling n rest
  end.

(** Insert [ns] right after [ref] ([None]: at the front). *)
Fixpoint insert_after_ref (ref : option nat) (ns : list nat) (kids : list nat) : list nat :=
  match ref with
  | None => ns ++ kids
  | Some x =>
      match kids with
      | [] => ns
      | k :: rest =>
          if (k =? x)%nat then k :: ns ++ rest
          else k :: insert_after_ref ref ns rest
      end
  end.

(** The nearest sibling before [n] that is not one of [ns]. *)
Fixpoint viable_previous (n : nat) (ns : list nat) (kids : list nat) (seen : option nat)
  : option nat :=
  match kids with
  | [] => seen
  | k :: rest =>
      if (k =? n)%nat then seen
      else viable_previous n ns rest (if in_list k ns then seen else Some k)
  end.

(** The nearest sibling after [n] that is not one of [ns]. *)
Fixpoint viable_next (n : nat) (ns : list nat) (kids : list nat) : option nat :=
  match kids with
  | [] => None
  | k :: rest =>
      if (k =? n)%nat then head (without ns rest) else viable_next n ns rest
  end.

(** Insert [ns] right before [ref] ([None]: at the end). *)
Fixpoint insert_before_ref (ref : option nat) (ns : list nat) (kids : list nat) : list nat :=
  match ref with
  | None => kids ++ ns
  | Some x =>
      match kids with
      | [] => ns
      | k :: rest =>
          if (k =? x)%nat then ns ++ k :: rest
          else k :: insert_before_ref ref ns rest
      end
  end.

(** [n.before(...ns)], as the DOM standard defines it: nothing happens
    when [n] has no parent; the nodes are first taken out of the tree. *)
Definition before (n : nat) (ns : list nat) (kids : list nat) : list nat :=
  if in_list n kids then
    insert_after_ref (viable_previous n ns kids None) ns (without ns kids)
  else kids.

(** [n.after(...ns)] *)
Definition after (n : nat) (ns : list nat) (kids : list nat) : list nat :=
  if in_list n kids then
    insert_before_ref (viable_next n ns kids) ns (without ns kids)
  else kids.

Definition has_group (g : nat) (n : nat) (wd : world) : bool :=
  match nodes wd !! n with
  | Some nd => in_list g (tags nd)
  | None => false
  end.

Definition is_Text (n : nat) (wd : world) : bool :=
  match nodes wd !! n with
  | Some nd => match kind nd with KText => true | _ => false end
  | None => false
  end.

Definition set_nodeValue (n : nat) (v : string) (wd : world) : world :=
  with_nodes (alter (fun nd => {| kind := kind nd; nodeValue := v; tags := tags nd |}) n) wd.

Definition get_dom (c : chunk) (wd : world) : list nat :=
  default [] (dom_store wd !! dom c).

(** [removeNodes(toRemove)] *)
Definition removeNodes (ns : list nat) (wd : world) : world :=
  with_children (without ns) wd.

(** *** Expression descriptors *)

(** [d._up(exp)]: overwrite the current expression, call the observer. *)
Definition desc_up (d : nat) (expression : nat) (wd : world) : option world :=
  match descs wd !! d with
  | None => None
  | Some ds =>
      let wd := with_descs (insert d {| e := e ds; cur := expression;
                                        observer := observer ds |}) wd in
      let wd := record (EvUp d expression) wd in
      match observer ds with
      | Some o => Some (record (EvObserver d o) wd)
      | None => Some wd
      end
  end.

(** [olds.forEach((exp, i) => exp._up(news[i].e))]; [news[i]] missing is a
    [TypeError]. *)
Fixpoint rebind (olds news : list nat) (wd : world) : option world :=
  match olds with
  | [] => Some wd
  | d :: rest =>
      match news with
      | [] => None
      | d' :: news' =>
          match descs wd !! d' with
          | None => None
          | Some ds' =>
              match desc_up d (e ds') wd with
              | Some wd => rebind rest news' wd
              | None => None
              end
          end
      end
  end.

(** *** [partial.add] *)

(** [!tpl && tpl !== 0] *)
Definition add_ignores (v : tplval) : bool :=
  match v with
  | TVal p => negb (truthy p) && negb (bool_decide (p = PNum 0))
  | TTpl _ _ _ => false
  end.

Definition set_chunks (cs : list nat) (p : partial) : partial :=
  {| p_html := p_html p; p_expressions := p_expressions p; chunks := cs;
     previousChunks := previousChunks p; keyedChunks := keyedChunks p;
     toRemove := toRemove p; l := l p; group := group p |}.

Definition push_toRemove (ns : list nat) (p : partial) : partial :=
  {| p_html := p_html p; p_expressions := p_expressions p; chunks := chunks p;
     previousChunks := previousChunks p; keyedChunks := keyedChunks p;
     toRemove := toRemove p ++ ns; l := l p; group := group p |}.

Definition add (v : tplval) (pw : partial * world) : option (partial * world) :=
  let '(p, wd) := pw in
  if add_ignores v then Some (p, wd)
  else
    let '(template, localExpressions, k) :=
      match v with
      | TTpl markup exps k => (markup, exps, k)
      | TVal _ => (EmptyString, [], 0%Z)
      end in
    let html' := p_html p +:+ template +:+ bookendComment in
    let keyedChunk := if (k =? 0)%Z then None else alist_get k (keyedChunks p) in
    match keyedChunk with
    | Some c =>
        match chunk_store wd !! c with
        | None => None
        | Some ck =>
            match rebind (exp ck) localExpressions wd with
            | None => None
            | Some wd =>
                Some ({| p_html := html';
                         p_expressions := p_expressions p ++ localExpressions;
                         chunks := chunks p ++ [c];
                         previousChunks := previousChunks p;
                         keyedChunks := keyedChunks p;
                         toRemove := toRemove p; l := S (l p); group := group p |}, wd)
            end
        end
    | None =>
        let arr := fresh wd in
        let c := S arr in
        let wd := with_fresh (S c)
                    (with_chunk_store
                       (insert c {| html := template; exp := localExpressions;
                                    dom := arr; tpl := v; key := k |})
                       (with_dom_store (insert arr []) wd)) in
        Some ({| p_html := html';
                 p_expressions := p_expressions p ++ localExpressions;
                 chunks := chunks p ++ [c];
                 previousChunks := previousChunks p;
                 keyedChunks := if (k =? 0)%Z then keyedChunks p
                                else alist_set k c (keyedChunks p);
                 toRemove := toRemove p; l := S (l p); group := group p |}, wd)
    end.

(** [reset()] *)
Definition reset (p : partial) : partial :=
  {| p_html := EmptyString; p_expressions := []; chunks := []; previousChunks := chunks p;
     keyedChunks := keyedChunks p; toRemove := []; l := 0; group := group p |}.

(** [addPlaceholderChunk(node)]: the chunk of an empty comment; [dom] is
    [[node]] or empty. *)
Definition addPlaceholderChunk (nd : list nat) (pw : partial * world) : partial * world :=
  let '(p, wd) := pw in
  let arr := fresh wd in
  let c := S arr in
  let wd := with_fresh (S c)
              (with_chunk_store
                 (insert c {| html := "<!---->"; exp := []; dom := arr;
                              tpl := TTpl "<!---->" [] 0; key := 0 |})
                 (with_dom_store (insert arr nd) wd)) in
  ({| p_html := "<!---->"; p_expressions := p_expressions p; chunks := chunks p ++ [c];
      previousChunks := previousChunks p; keyedChunks := keyedChunks p;
      toRemove := toRemove p; l := l p; group := group p |}, wd).

(** [document.createTextNode(v)] / [document.createComment('')]: a new
    node outside the tree. *)
Definition create_node (k : node_kind) (v : string) (tg : list nat) (wd : world)
  : nat * world :=
  (fresh wd,
   with_fresh (S (fresh wd))
     (with_nodes (insert (fresh wd) {| kind := k; nodeValue := v; tags := tg |}) wd)).

(** What rendering a partial returns: one text node, or a fragment. *)
Inductive rendered :=
| RText (n : nat)
| RFrag (ns : list nat).

(** [frag.lastChild] *)
Definition lastChild (r : rendered) : option nat :=
  match r with
  | RText _ => None
  | RFrag ns => last ns
  end.

Definition rendered_nodes (r : rendered) : list nat :=
  match r with
  | RText n => [n]
  | RFrag ns => ns
  end.

Definition text_of (v : tplval) : string :=
  match v with
  | TVal p => to_text p
  | TTpl markup _ _ => markup
  end.

Section rendering.

(** The browser's parser and the binding pass [fragment] over its result,
    as one function from the accumulated markup to the top-level nodes it
    yields, bookend comments included. *)
Variable createNodes : string -> list parsed.

(** [assignDomChunks(frag)]: walk the top-level nodes, moving to the next
    chunk at each bookend; every other node is tagged with the group and
    pushed onto the current chunk's node array.  Returns the nodes left in
    the fragment. *)
Fixpoint assignDomChunks (g : nat) (cs : list nat) (ps : list parsed) (chunkIndex : nat)
  (acc : list nat) (wd : world) : option (list nat * world) :=
  match ps with
  | [] => Some (acc, wd)
  | PBookend :: rest => assignDomChunks g cs rest (S chunkIndex) acc wd
  | PNode k v :: rest =>
      match cs !! chunkIndex with
      | None => None
      | Some c =>
          match chunk_store wd !! c with
          | None => None
          | Some ck =>
              let '(n, wd) := create_node k v [g] wd in
              let wd := with_dom_store (alter (fun ns => ns ++ [n]) (dom ck)) wd in
              assignDomChunks g cs rest chunkIndex (acc ++ [n]) wd
          end
      end
  end.

(** The partial called as a function: [partial()]. *)
Definition render (pw : partial * world) : option (rendered * partial * world) :=
  let '(p, wd) := if (length (chunks pw.1) =? 0)%nat then addPlaceholderChunk [] pw else pw in
  let text_chunk :=
    match chunks p with
    | [c] =>
        match chunk_store wd !! c with
        | Some ck => if isTpl (tpl ck) then None else Some ck
        | None => None
        end
    | _ => None
    end in
  match text_chunk with
  | Some ck =>
      match get_dom ck wd with
      | n :: _ => Some (RText n, reset p, set_nodeValue n (text_of (tpl ck)) wd)
      | [] =>
          let '(n, wd) := create_node KText (text_of (tpl ck)) [] wd in
          let wd := with_dom_store (alter (fun ns => ns ++ [n]) (dom ck)) wd in
          Some (RText n, reset p, wd)
      end
  | None =>
      match assignDomChunks (group p) (chunks p) (createNodes (p_html p)) 0 [] wd with
      | Some (ns, wd) => Some (RFrag ns, reset p, wd)
      | None => None
      end
  end.

(** *** Reconciliation: [partial._up] *)

(** The variables of one [_up] call. *)
Record upstate := UpState {
  main : partial;
  subPartial : partial;
  startChunking : nat;
  lastNode : option nat;
  wd : world
}.

(** [transferChunks(partialA, chunksB, chunkIndex)] *)
Fixpoint transferChunks (src : list nat) (chunksB : list nat) (chunkIndex : nat)
  (wd : world) : option world :=
  match src with
  | [] => Some wd
  | c :: rest =>
      match chunk_store wd !! c, chunksB !! chunkIndex with
      | Some ck, Some b =>
          let wd :=
            with_chunk_store
              (alter (fun bk => {| html := html bk; exp := exp bk; dom := dom ck;
                                   tpl := tpl bk; key := key bk |}) b) wd in
          transferChunks rest chunksB (S chunkIndex) wd
      | _, _ => None
      end
  end.

(** [closeSubPartial()] *)
Definition closeSubPartial (u : upstate) : option upstate :=
  if (l (subPartial u) =? 0)%nat then Some u
  else
    match render (subPartial u, wd u) with
    | None => None
    | Some (frag, sub, wd1) =>
        let last := lastChild frag in
        match lastNode u with
        | None => None
        | Some ln =>
            let place := if (startChunking u =? 0)%nat then before else after in
            let wd2 := with_children (place ln (rendered_nodes frag)) wd1 in
            match transferChunks (previousChunks sub) (chunks (main u)) (startChunking u) wd2 with
            | None => None
            | Some wd3 =>
                Some {| main := main u; subPartial := sub;
                        startChunking := startChunking u; lastNode := last; wd := wd3 |}
            end
        end
    end.

(** The three branches of the loop body, by name. *)
Inductive rule := KeyedMatch | StructuralMatch | Rebuild.

(** Which branch the [if] / [else if] / [else] of the loop body takes for
    the chunk [ck] facing the previous chunk [prev]. *)
Definition select_rule (ck : chunk) (prev : option chunk) (w0 : world) : rule :=
  if negb (key ck =? 0)%Z && negb (length (get_dom ck w0) =? 0)%nat then KeyedMatch
  else
    match prev with
    | Some pk =>
        if String.eqb (html ck) (html pk) && (key pk =? 0)%Z then StructuralMatch
        else Rebuild
    | None => Rebuild
    end.

Definition isTextNodeChunk (ck : chunk) (w0 : world) : bool :=
  (length (get_dom ck w0) =? 1)%nat && negb (isTpl (tpl ck)).

(** The body of [chunks.forEach((chunk, index) => ...)]. *)
Definition up_step (index : nat) (c : nat) (u : upstate) : option upstate :=
  match chunk_store (wd u) !! c with
  | None => None
  | Some ck =>
      let prevId := previousChunks (main u) !! index in
      let prev := prevId ≫= (fun i => chunk_store (wd u) !! i) in
      match select_rule ck prev (wd u) with
      | KeyedMatch =>
          match closeSubPartial u with
          | None => None
          | Some u =>
              match chunk_store (wd u) !! c with
              | None => None
              | Some ck =>
                  let prev := prevId ≫= (fun i => chunk_store (wd u) !! i) in
                  let same :=
                    match prev with
                    | Some pk => (dom pk =? dom ck)%nat
                    | None => false
                    end in
                  let nodes_c := get_dom ck (wd u) in
                  let moved :=
                    if same then Some (wd u)
                    else
                      match lastNode u with
                      | None => None
                      | Some ln =>
                          let place := if (index =? 0)%nat then before else after in
                          Some (with_children (place ln nodes_c) (wd u))
                      end in
                  match moved with
                  | None => None
                  | Some w1 =>
                      Some {| main := main u; subPartial := subPartial u;
                              startChunking := startChunking u;
                              lastNode := last nodes_c; wd := w1 |}
                  end
              end
          end
      | StructuralMatch =>
          match closeSubPartial u with
          | None => None
          | Some u =>
              match chunk_store (wd u) !! c,
                    prevId ≫= (fun i => chunk_store (wd u) !! i) with
              | Some ck, Some pk =>
                  match rebind (exp pk) (exp ck) (wd u) with
                  | None => None
                  | Some w1 =>
                      let ck' := {| html := html ck; exp := exp pk; dom := dom pk;
                                    tpl := tpl ck; key := key ck |} in
                      let w2 := with_chunk_store (insert c ck') w1 in
                      let ln := last (get_dom ck' w2) in
                      let w3 :=
                        match ln with
                        | Some n =>
                            if isTextNodeChunk ck' w2 && is_Text n w2
                            then set_nodeValue n (text_of (tpl ck')) w2 else w2
                        | None => w2
                        end in
                      Some {| main := main u; subPartial := subPartial u;
                              startChunking := startChunking u;
                              lastNode := ln; wd := w3 |}
                  end
              | _, _ => None
              end
          end
      | Rebuild =>
          let m :=
            match prev with
            | Some pk =>
                if negb (String.eqb (html ck) (html pk)) && (key pk =? 0)%Z
                then push_toRemove (get_dom pk (wd u)) (main u) else main u
            | None => main u
            end in
          let sc := if (l (subPartial u) =? 0)%nat then index else startChunking u in
          match add (tpl ck) (subPartial u, wd u) with
          | None => None
          | Some (sub, w1) =>
              Some {| main := m; subPartial := sub; startChunking := sc;
                      lastNode := lastNode u; wd := w1 |}
          end
      end
  end.

(** [chunks.forEach(...)], from [index] on. *)
Fixpoint up_loop (cs : list nat) (index : nat) (u : upstate) : option upstate :=
  match cs with
  | [] => Some u
  | c :: rest =>
      match up_step index c u with
      | Some u => up_loop rest (S index) u
      | None => None
      end
  end.

(** The [while (node && group in node)] loop: the siblings from [node] on
    that carry the group, up to the first one that does not. *)
Fixpoint trailing (g : nat) (kids : list nat) (w0 : world) : list nat :=
  match kids with
  | [] => []
  | k :: rest => if has_group g k w0 then k :: trailing g rest w0 else []
  end.

(** The siblings after [n]. *)
Fixpoint siblings_after (n : nat) (kids : list nat) : list nat :=
  match kids with
  | [] => []
  | k :: rest => if (k =? n)%nat then rest else siblings_after n rest
  end.

(** The end of [_up], after the loop: close the sub-partial, collect the
    trailing nodes, remove everything in [toRemove], reset. *)
Definition up_finish (u : upstate) : option (partial * world) :=
  match closeSubPartial u with
  | None => None
  | Some u =>
      let extra :=
        match lastNode u with
        | Some ln => trailing (group (main u)) (siblings_after ln (children (wd u))) (wd u)
        | None => []
        end in
      let m := push_toRemove extra (main u) in
      Some (reset m, removeNodes (toRemove m) (wd u))
  end.

(** The start of [_up]: the sub-partial, [lastNode] read off the first
    previous chunk, and the placeholder for an empty update. *)
Definition up_init (pw : partial * world) : option upstate :=
  let '(p, w0) := pw in
  match previousChunks p with
  | [] => None
  | c0 :: _ =>
      match chunk_store w0 !! c0 with
      | None => None
      | Some ck0 =>
          let first := head (get_dom ck0 w0) in
          let '(p, w0) :=
            if (length (chunks p) =? 0)%nat then
              let '(n, w1) := create_node KComment EmptyString [] w0 in
              addPlaceholderChunk [n] (p, w1)
            else (p, w0) in
          Some {| main := p; subPartial := createPartial (group p);
                  startChunking := 0; lastNode := first; wd := w0 |}
      end
  end.

(** [partial._up()] *)
Definition _up (pw : partial * world) : option (partial * world) :=
  match up_init pw with
  | None => None
  | Some u =>
      match up_loop (chunks (main u)) 0 u with
      | None => None
      | Some u => up_finish u
      end
  end.

(** [setNode(value, p)] for an update: add every item, then patch. *)
Definition setNode_update (values : list tplval) (pw : partial * world)
  : option (partial * world) :=
  match fold_left (fun acc v => acc ≫= add v) values (Some pw) with
  | Some pw => _up pw
  | None => None
  end.

End rendering.

(** A stand-in for the parser, for examples: the markup is split at the
    bookend comments; an empty segment yields no node, the empty comment
    yields a comment, any other segment one element. *)
Fixpoint starts_with (pre s : string) : option string :=
  match pre with
  | EmptyString => Some s
  | String a pre' =>
      match s with
      | String b s' => if Ascii.eqb a b then starts_with pre' s' else None
      | EmptyString => None
      end
  end.

Definition segment_nodes (seg : string) : list parsed :=
  if String.eqb seg EmptyString then []
  else if String.eqb seg "<!---->" then [PNode KComment EmptyString]
  else [PNode KElement seg].

Fixpoint toy_parse (fuel : nat) (s : string) (seg : string) : list parsed :=
  match fuel with
  | O => []
  | S fuel =>
      match starts_with bookendComment s with
      | Some rest => segment_nodes seg ++ PBookend :: toy_parse fuel rest EmptyString
      | None =>
          match s with
          | EmptyString => segment_nodes seg
          | String a s' => toy_parse fuel s' (seg +:+ String a EmptyString)
          end
      end
  end.

Definition toy_createNodes (s : string) : list parsed :=
  toy_parse (S (String.length s)) s EmptyString.

(** The chunk appended when a value that is not a template is added. *)
Definition text_chunk_added (v : prim) (pw : partial * world) : partial * world :=
  let arr := fresh pw.2 in
  let c := S arr in
  ({| p_html := p_html pw.1 +:+ bookendComment;
      p_expressions := p_expressions pw.1;
      chunks := chunks pw.1 ++ [c];
      previousChunks := previousChunks pw.1;
      keyedChunks := keyedChunks pw.1;
      toRemove := toRemove pw.1; l := S (l pw.1); group := group pw.1 |},
   with_fresh (S c)
     (with_chunk_store
        (insert c {| html := EmptyString; exp := []; dom := arr; tpl := TVal v; key := 0 |})
        (with_dom_store (insert arr []) pw.2))).



(** The chunk a structural match leaves at the new chunk's address. *)
Definition reused (ck pk : chunk) : chunk :=
  {| html := html ck; exp := exp pk; dom := dom pk; tpl := tpl ck; key := key ck |}.


(** *** Sample data for the examples *)

Definition world0 : world :=
  {| nodes := ∅; children := []; descs := ∅; chunk_store := ∅; dom_store := ∅;
     fresh := 100; trace := [] |}.

(** Mounting what the first render returns as the children of the parent. *)
Definition mount (r : option (rendered * partial * world)) : option (partial * world) :=
  match r with
  | Some (fr, p, w0) => Some (p, with_children (fun _ => rendered_nodes fr) w0)
  | None => None
  end.

Definition adds (vs : list tplval) (pw : partial * world) : option (partial * world) :=
  fold_left (fun acc v => acc ≫= add v) vs (Some pw).

Definition first_render (vs : list tplval) (wd : world) : option (partial * world) :=
  adds vs (createPartial 7, wd) ≫= (fun pw => mount (render toy_createNodes pw)).

Definition tplA : tplval := TTpl "<a></a>" [] 0.
Definition tplB : tplval := TTpl "<b></b>" [] 0.
Definition tplC : tplval := TTpl "<c></c>" [] 0.



(** A keyed chunk followed by an un-keyed one. *)
Definition keyed_then_plain : option (partial * world) :=
  first_render [TTpl "<a></a>" [] 1; tplB] world0.




Definition idle_upstate : upstate :=
  {| main := createPartial 0; subPartial := createPartial 0; startChunking := 0;
     lastNode := None; wd := world0 |}.

Definition rebuild_start : upstate :=
  default idle_upstate ((keyed_then_plain ≫= adds [tplC; tplB]) ≫= up_init).

Definition rebuild_next : upstate :=
  default idle_upstate (up_step toy_createNodes 0 107 rebuild_start).


Definition chunkC_new : chunk :=
  {| html := "<c></c>"; exp := []; dom := 106; tpl := tplC; key := 0 |}.




(** *** Further sample data *)


(** [setNode(value, p)] when [p] is not yet a partial: a new partial, to
    which the value, or each item of an array value, is added. *)
Definition setNode_create (values : list tplval) (g : nat) (wd : world)
  : option (partial * world) :=
  fold_left (fun acc v => acc ≫= add v) values (Some (createPartial g, wd)).




(** The nodes among the top-level items the parser yields, bookends left
    out, in order. *)
Definition parsed_nodes (ps : list parsed) : list (node_kind * string) :=
  omap (fun x => match x with PNode k v => Some (k, v) | PBookend => None end) ps.

(** Walking [ps] from chunk index [i], no node is met at an index beyond
    the [n] chunks: every node lies before the [n]-th bookend. *)
Fixpoint fits (n : nat) (ps : list parsed) (i : nat) : bool :=
  match ps with
  | [] => true
  | PBookend :: rest => fits n rest (S i)
  | PNode _ _ :: rest => (i <? n)%nat && fits n rest i
  end.

(** One template added to a new partial, not yet rendered. *)
Definition one_added : option (partial * world) := adds [tplA] (createPartial 7, world0).

(** One template rendered, then another one added in its place, or after
    it. *)
Definition one_replaced : option (partial * world) :=
  first_render [tplA] world0 ≫= adds [tplB].




End Partial.

(** ** The finite state machine library *)

(** The synchronous core of the bundled state machine library: [guard],
    [reduce], [transition], [immediate], [state], [createMachine] with the
    checks of the debug build, [interpret] and [send].  States are those
    built by [state(...)]; guards and reducers are functions of the context
    and the event without effects of their own. *)
Module Robot.

(** What [key in object] answers true for on any object literal besides
    its own keys: the properties of [Object.prototype]. *)
Definition object_prototype_keys : list string :=
  ["constructor"; "hasOwnProperty"; "isPrototypeOf"; "propertyIsEnumerable";
   "toString"; "toLocaleString"; "valueOf"; "__proto__";
   "__defineGetter__"; "__defineSetter__"; "__lookupGetter__"; "__lookupSetter__"].

(** [key in obj] for an object literal with the given own entries. *)
Definition js_in {A : Type} (key : string) (obj : list (string * A)) : bool :=
  bool_decide (key ∈ map fst obj) || bool_decide (key ∈ object_prototype_keys).

(** What the library throws. *)
Inductive error :=
| InitialUnknown (current : string)
| UnknownState (from to : string)
| NoTransitions (eventName : option string) (currentStateName : string)
| TypeError.

Section machine.
(** The context of a service, what an event object carries besides its
    [type], and what [interpret] is given as initial context. *)
Context {C P I : Type}.

(** An event: a string, or an object with an optional [type]. *)
Inductive event :=
| EvName (name : string)
| EvObject (type : option string) (payload : P).

(** [event.type || event], when it is a string; an event object without a
    (truthy) [type] stands for itself and matches no transition name. *)
Definition eventName (ev : event) : option string :=
  match ev with
  | EvName s => Some s
  | EvObject (Some ty) _ => if String.eqb ty EmptyString then None else Some ty
  | EvObject None _ => None
  end.

(** Guards and reducers are called with the context and the event that
    caused the transition ([undefined] when [interpret] is given none). *)
Definition guard_fn : Type := C -> option event -> bool.
Definition reduce_fn : Type := C -> option event -> C.

(** [stack(fns, def, caller)] *)
Definition stack {F : Type} (fns : list F) (def : F) (caller : F -> F -> F) : F :=
  fold_left caller fns def.

Definition truthy : guard_fn := fun _ _ => true.
Definition identity : reduce_fn := fun a _ => a.
Definition callBoth (par fn : guard_fn) : guard_fn := fun c e => par c e && fn c e.
Definition callForward (par fn : reduce_fn) : reduce_fn := fun c e => fn (par c e) e.

(** The arguments of [transition] and [immediate] after the state names,
    by prototype: made by [guard], made by [reduce], anything else. *)
Inductive targ :=
| AGuard (fn : guard_fn)
| AReduce (fn : reduce_fn)
| AOther.


(** [filter(guardType, args).map(t => t.fn)] and the same for reducers. *)
Definition guard_fns (args : list targ) : list guard_fn :=
  omap (fun a => match a with AGuard f => Some f | _ => None end) args.

Definition reduce_fns (args : list targ) : list reduce_fn :=
  omap (fun a => match a with AReduce f => Some f | _ => None end) args.

(** A transition object; [from] is [null] for an immediate one. *)
Record transition_obj := Transition {
  from : option string;
  to : string;
  guards : guard_fn;
  reducers : reduce_fn
}.

Definition makeTransition (from : option string) (to : string) (args : list targ)
  : transition_obj :=
  {| from := from; to := to;
     guards := stack (guard_fns args) truthy callBoth;
     reducers := stack (reduce_fns args) identity callForward |}.

(** The arguments of [state], by prototype. *)
Inductive sarg :=
| ATransition (t : transition_obj)
| AImmediate (t : transition_obj)
| ANeither.

Definition transition (from to : string) (args : list targ) : sarg :=
  ATransition (makeTransition (Some from) to args).

Definition immediate (to : string) (args : list targ) : sarg :=
  AImmediate (makeTransition None to args).

(** [transitionsToMap(transitions)]: a [Map] from [from] to the
    transitions with that [from], in their order. *)
Definition transitionsToMap (ts : list transition_obj)
  : list (option string * list transition_obj) :=
  fold_left
    (fun m t => alist_set (from t) (default [] (alist_get (from t) m) ++ [t]) m)
    ts [].

(** A state object.  Without immediates [enter] is the inherited
    [identity]; with some it is [enterImmediate]. *)
Record state_obj := StateObj {
  final : bool;
  transitions : list (option string * list transition_obj);
  immediates : list transition_obj
}.

(** [filter(transitionType, args)] and [filter(immediateType, args)] *)
Definition transition_args (args : list sarg) : list transition_obj :=
  omap (fun a => match a with ATransition t => Some t | _ => None end) args.

Definition immediate_args (args : list sarg) : list transition_obj :=
  omap (fun a => match a with AImmediate t => Some t | _ => None end) args.

Definition state (args : list sarg) : state_obj :=
  {| final := (length args =? 0)%nat;
     transitions := transitionsToMap (transition_args args);
     immediates := immediate_args args |}.

(** A machine: the definition and the name of the current state. *)
Record machine := Machine {
  current : string;
  states : list (string * state_obj);
  context : I -> option event -> C
}.

Definition with_current (name : string) (m : machine) : machine :=
  {| current := name; states := states m; context := context m |}.

(** [d._create(current, states)]: the first error it throws, if any.  The
    targets of immediate transitions are not looked at. *)
Definition unknown_targets (sts : list (string * state_obj)) : list (string * string) :=
  flat_map
    (fun ps : string * state_obj =>
       flat_map
         (fun kc : option string * list transition_obj =>
            omap (fun t => if js_in (to t) sts then None else Some (ps.1, to t)) kc.2)
         (transitions ps.2))
    sts.

Definition _create (current : string) (sts : list (string * state_obj)) : option error :=
  if negb (js_in current sts) then Some (InitialUnknown current)
  else match unknown_targets sts with
       | (p, t) :: _ => Some (UnknownState p t)
       | [] => None
       end.

(** [createMachine(current, states, contextFn)]; [current] is [None] in
    the form without a state name, which takes the first key. *)
Definition createMachine (current : option string) (sts : list (string * state_obj))
  (contextFn : I -> option event -> C) : error + machine :=
  let current :=
    match current with
    | Some name => name
    | None => default "undefined" (head (map fst sts))
    end in
  match _create current sts with
  | Some err => inl err
  | None => inr {| current := current; states := sts; context := contextFn |}
  end.

(** A service: the machine, the context, and the calls of [onChange] made
    so far (the state name and context it was shown). *)
Record service := Service {
  s_machine : machine;
  s_context : C;
  changes : list (string * C)
}.

(** How a call ends: normally, by throwing, or never (the recursion
    through immediate transitions is cut by [fuel]). *)
Inductive outcome (A : Type) :=
| Returned (a : A)
| Threw (e : error) (ctx : C)
| Diverged.
Arguments Returned {A} a.
Arguments Threw {A} e ctx.
Arguments Diverged {A}.

(** [transitionTo(service, machine, fromEvent, candidates)], the context
    of the service passed along; [Returned None] is [undefined]: no
    candidate's guards hold.  The first candidate whose guards hold is
    taken: its reducers give the new context, the machine moves to [to],
    and the new state's [enter] runs -- for a state with immediates,
    [transitionTo] again with these. *)
Fixpoint transitionTo (fuel : nat) (ctx : C) (m : machine) (fromEvent : option event)
  (candidates : list transition_obj) : outcome (option (machine * C)) :=
  match fuel with
  | O => Diverged
  | S fuel =>
      match List.find (fun t => guards t ctx fromEvent) candidates with
      | None => Returned None
      | Some t =>
          let ctx' := reducers t ctx fromEvent in
          let newMachine := with_current (to t) m in
          match alist_get (to t) (states m) with
          | None => Threw TypeError ctx'
          | Some st =>
              match immediates st with
              | [] => Returned (Some (newMachine, ctx'))
              | ims =>
                  match transitionTo fuel ctx' newMachine fromEvent ims with
                  | Returned None => Returned (Some (newMachine, ctx'))
                  | r => r
                  end
              end
          end
      end
  end.



(** [interpret(machine, onChange, initialContext, event)]: the context
    comes from the machine's context function, then the initial state is
    entered; [onChange] is not called. *)
Definition interpret (fuel : nat) (m : machine) (initialContext : I) (ev : option event)
  : outcome service :=
  let ctx := context m initialContext ev in
  match alist_get (current m) (states m) with
  | None => Threw TypeError ctx
  | Some st =>
      match immediates st with
      | [] => Returned {| s_machine := m; s_context := ctx; changes := [] |}
      | ims =>
          match transitionTo fuel ctx m ev ims with
          | Returned (Some (m', c')) =>
              Returned {| s_machine := m'; s_context := c'; changes := [] |}
          | Returned None => Returned {| s_machine := m; s_context := ctx; changes := [] |}
          | Threw e c => Threw e c
          | Diverged => Diverged
          end
      end
  end.



End machine.

Arguments event : clear implicits.
Arguments guard_fn : clear implicits.
Arguments reduce_fn : clear implicits.
Arguments transition_obj : clear implicits.
Arguments state_obj : clear implicits.
Arguments machine : clear implicits.
Arguments service : clear implicits.
Arguments outcome : clear implicits.
Arguments Returned {C A} a.
Arguments Threw {C A} e ctx.
Arguments Diverged {C A}.
Arguments targ : clear implicits.
Arguments sarg : clear implicits.

(** *** Sample machines *)





(** Two states that send each other on at once. *)
Definition bounce_states : list (string * state_obj Z unit) :=
  [("idle", state [transition "go" "ping" []]);
   ("ping", state [immediate "pong" []]);
   ("pong", state [immediate "ping" []])].

Definition bounce_machine : machine Z unit unit :=
  {| current := "idle"; states := bounce_states; context := fun _ _ => 0%Z |}.

End Robot.

(** ** The stopwatch display *)

(** The arithmetic of the timer app: an elapsed time in milliseconds
    shown as [hh:mm:ss:ms].  Times are integers, as differences of
    [Date.now()] are. *)
Module Timer.

Definition sec : Z := 1000.
Definition min : Z := 60 * sec.
Definition hour : Z := 60 * min.

(** [s.padStart(2, p)]: a string of two or more characters, or an empty
    filler, gives [s] back; otherwise the filler repeated, cut to the
    missing length, goes in front. *)
Definition padStart2 (s p : string) : string :=
  let len := String.length s in
  if (2 <=? len)%nat then s
  else if String.eqb p EmptyString then s
  else String.substring 0 (2 - len) (p +:+ p) +:+ s.

(** [pad$1(n, p)] *)
Definition pad_1 (n : Z) (p : string) : string := padStart2 (Z_to_text n) p.

(** [Math.floor(time / div) % mod]; [%] takes the sign of its left side. *)
Definition time_field (div modulus : Z) (time : Z) : Z := Z.rem (time / div) modulus.

(** [makeTimeFormat$1(div, mod)], which calls [pad$1] with its default
    filler. *)
Definition makeTimeFormat_1 (div modulus : Z) (time : Z) : string :=
  pad_1 (time_field div modulus time) "0".

Definition timeFormats_1 : list (Z -> string) :=
  [makeTimeFormat_1 hour 24; makeTimeFormat_1 min 60; makeTimeFormat_1 sec 60;
   makeTimeFormat_1 1 1000].

Definition getTimeDisplays_1 (time : Z) : list string :=
  map (fun fn => fn time) timeFormats_1.

(** [update$1(store)()], given what [store.start] and [Date.now()] hold:
    the values assigned to [store.elapsed] and [store.display]. *)
Definition update_1 (start now : Z) : Z * string :=
  let elapsed := (now - start)%Z in
  (elapsed,
   match getTimeDisplays_1 elapsed with
   | [hr; mn; sc; ms] => hr +:+ ":" +:+ mn +:+ ":" +:+ sc +:+ ":" +:+ ms
   | _ => EmptyString
   end).

End Timer.

(** ** The terminal's commands *)

(** The [stop] command and what the terminal makes of a command's
    result.  [console.log] calls leave no trace in the model; the text
    [new Date().toLocaleString()] gives is a parameter [now]. *)
Module Terminal.

(** An entry of [runningApps].  [data] is the app's store. *)
Record running (D : Type) := Running {
  name : string;
  interval : nat;
  data : D
}.

Arguments Running {D} name interval data.
Arguments name {D} r.
Arguments interval {D} r.
Arguments data {D} r.

(** The module-level array [runningApps] and the timers handed to
    [clearInterval] so far. *)
Record host (D : Type) := Host {
  runningApps : list (running D);
  cleared : list nat
}.

Arguments Host {D} runningApps cleared.
Arguments runningApps {D} h.
Arguments cleared {D} h.

(** What a command returns: a string, the object [msgNext] builds, or
    nothing. *)
Inductive result :=
| RString (s : string)
| RMessage (message next timestamp : string)
| RUndefined.

(** [msgNext(next, message, log)] *)
Definition msgNext (now : string) (next message : string) : result :=
  RMessage message next now.

(** [arr.findIndex(f)]: the index of the first element [f] accepts, or [-1]. *)
Fixpoint findIndex_from {A : Type} (f : A -> bool) (l : list A) (i : Z) : Z :=
  match l with
  | [] => -1
  | x :: rest => if f x then i else findIndex_from f rest (i + 1)
  end.

Definition findIndex {A : Type} (f : A -> bool) (l : list A) : Z := findIndex_from f l 0.

(** [arr.splice(i, 1)] for an index [i] that is not negative. *)
Definition splice_one {A : Type} (i : Z) (l : list A) : list A :=
  take (Z.to_nat i) l ++ drop (S (Z.to_nat i)) l.

(** An argument of a command inside a template literal; a missing
    argument reads [undefined]. *)
Definition arg_text (app : option string) : string := default "undefined" app.

(** [COMMANDS.stop(app)].  [None]: reading [.interval] of a missing entry
    throws. *)
Definition stop {D : Type} (now : string) (app : option string) (h : host D)
  : option (result * host D) :=
  let appIndex := findIndex (fun a => bool_decide (Some (name a) = app)) (runningApps h) in
  if (-1 <? appIndex)%Z then
    match runningApps h !! Z.to_nat appIndex with
    | Some a =>
        Some (RString ("Stopped app: " +:+ arg_text app),
              {| runningApps := splice_one appIndex (runningApps h);
                 cleared := cleared h ++ [interval a] |})
    | None => None
    end
  else Some (msgNext now "error" ("Cannot stop unknown app: " +:+ arg_text app), h).

(** A line of the terminal's output. *)
Record line := Line {
  display : string;
  type : string;
  timestamp : string
}.

(** What [evalOutput] returns: the part of the context an evaluation
    replaces. *)
Record evaluation := Evaluation {
  output : list line;
  next : option string;
  error : option string
}.

(** [evalOutput(prevOutput, newOutput, next = null, error = null)] *)
Definition evalOutput (prevOutput : list line) (newOutput : line)
  (next error : option string) : evaluation :=
  {| output := prevOutput ++ [newOutput]; next := next; error := error |}.

(** [handleEvalResult(ctx, result)], given [ctx.output].  [None]: the
    function returns nothing. *)
Definition handleEvalResult (now : string) (ctx_output : list line) (r : result)
  : option evaluation :=
  match r with
  | RString s =>
      Some (evalOutput ctx_output {| display := s; type := "output"; timestamp := now |}
              None None)
  | RMessage message nx ts =>
      if String.eqb nx "error" then
        Some (evalOutput ctx_output {| display := message; type := "error"; timestamp := ts |}
                (Some nx) (Some message))
      else
        Some (evalOutput ctx_output {| display := message; type := "output"; timestamp := ts |}
                (Some nx) None)
  | RUndefined => None
  end.

(** Two clocks started, then a timer. *)
Definition three_running : host unit :=
  {| runningApps := [Running "clock" 1 tt; Running "timer" 2 tt; Running "clock" 3 tt];
     cleared := [] |}.

End Terminal.

(** * Facts about the template compiler *)

Module TemplateFacts.
Import Template.

Lemma append_assoc (a b c : string) : (a +:+ b) +:+ c = a +:+ (b +:+ c).
Proof.
  induction a as [|ch a IH]; [reflexivity |].
  change (String ch ((a +:+ b) +:+ c) = String ch (a +:+ b +:+ c)). now rewrite IH.
Qed.

Lemma append_nil_r (a : string) : a +:+ EmptyString = a.
Proof.
  induction a as [|ch a IH]; [reflexivity |].
  change (String ch (a +:+ EmptyString) = String ch a). now rewrite IH.
Qed.

(** The accumulator-passing [addExpressions] appends exactly the slot's
    own markup and descriptors to what it was given. *)
Lemma addExpressions_app (s : slot) (acc : list descriptor * string) :
  addExpressions s acc
  = (acc.1 ++ map fresh_descriptor (slot_funs s), acc.2 +:+ slot_markup s).
Proof.
  revert acc. induction s as [f | items IH | p] using slot_nested_ind; intros [exps html]; simpl.
  - reflexivity.
  - revert exps html. induction IH as [| x rest Hx _ IHrest]; intros exps html; simpl.
    + now rewrite app_nil_r, append_nil_r.
    + rewrite Hx. simpl. rewrite IHrest.
      now rewrite map_app, app_assoc, append_assoc.
  - now rewrite app_nil_r.
Qed.

Lemma interlaceTemplate_app (slots : list slot) (strs : list string) (i : nat)
  (acc : list descriptor * string) :
  interlaceTemplate slots strs i acc
  = (acc.1 ++ map fresh_descriptor (funs_from slots strs i),
     acc.2 +:+ markup_from slots strs i).
Proof.
  revert i acc. induction strs as [| strVal rest IH]; intros i [exps html]; simpl.
  - now rewrite app_nil_r, append_nil_r.
  - rewrite IH. unfold top_funs, top_markup.
    destruct (slots !! i) as [s|]; simpl.
    + destruct (is_undefined s); simpl.
      * now rewrite !append_assoc.
      * rewrite addExpressions_app. simpl.
        now rewrite map_app, app_assoc, !append_assoc.
    + now rewrite !append_assoc.
Qed.

(** C6, as the code has it.  Compiling a fresh template [t strings slots]:
    unless it is the empty template (which compiles to an empty comment), the
    markup is the literal strings interleaved, in order, with what each slot
    contributes, and the expression list holds one fresh descriptor per
    function met, in the same left-to-right order.  A function contributes
    the placeholder comment and itself; an array contributes what its
    elements contribute, recursively and in order; any other value
    contributes its text -- except that a top-level slot holding
    [undefined] is skipped and contributes nothing. *)
Theorem compile_slots_in_order (strs : list string) (slots : list slot) :
  let r := toString (t strs slots) in
  if is_empty_template (t strs slots)
  then r.1 = "<!---->" /\ expressions r.2 = []
  else r.1 = markup_from slots strs 0
       /\ expressions r.2 = map fresh_descriptor (funs_from slots strs 0)
       /\ str r.2 = r.1.
Proof.
  unfold toString. simpl.
  destruct (is_empty_template (t strs slots)) eqn:E; simpl.
  - split; reflexivity.
  - rewrite interlaceTemplate_app. simpl. repeat split.
Qed.

(** Each kind of slot, on its own between two literal strings. *)
Lemma slot_markup_cases :
  (forall f, slot_markup (SFun f) = delimiterComment /\ slot_funs (SFun f) = [f])
  /\ (forall items,
        slot_markup (SArr items) = fold_right (fun x acc => slot_markup x +:+ acc) EmptyString items
        /\ slot_funs (SArr items) = fold_right (fun x acc => slot_funs x ++ acc) [] items)
  /\ (forall p, slot_markup (SVal p) = to_text p /\ slot_funs (SVal p) = []).
Proof. repeat split. Qed.

(** C6 as stated fails for the value [undefined]: the claim has every value
    that is neither a function nor an array inlined as its text, which for
    [t ["a"; "b"] [undefined]] would be ["aundefinedb"]; the guard
    [expSlots[i] !== undefined] of [interlaceTemplate] skips it. *)
Lemma undefined_slot_not_inlined :
  (toString (t ["a"; "b"] [SVal PUndef])).1 = "ab"
  /\ (toString (t ["a"; "b"] [SVal PUndef])).1 <> "a" +:+ to_text PUndef +:+ "b"
  /\ (toString (t ["a"; "b"] [SArr [SVal PUndef]])).1 = "a" +:+ to_text PUndef +:+ "b".
Proof. repeat split; vm_compute; congruence. Qed.

Example compile_mixed :
  let r := toString (t ["<p>"; "</p><i>"; "</i>"; EmptyString]
                       [SFun 7; SArr [SVal (PNum 3); SFun 8; SArr [SFun 9]]; SVal (PStr "x")]) in
  r.1 = "<p><!--➳❍--></p><i>3<!--➳❍--><!--➳❍--></i>x"
  /\ map e (expressions r.2) = [7; 8; 9].
Proof. split; reflexivity. Qed.

End TemplateFacts.

(** * Facts about insertion-ordered maps and sets *)

Module OrderedFacts.

Section ordered_facts.
Context {K V : Type} `{EqDecision K}.
Implicit Types (k : K) (v : V) (m : list (K * V)) (s : list K).

Lemma alist_get_set_eq k v m : alist_get k (alist_set k v m) = Some v.
Proof.
  induction m as [| [k' v'] m IH]; simpl.
  - now rewrite decide_True.
  - destruct (decide (k = k')) as [->|Hne]; simpl.
    + now rewrite decide_True.
    + now rewrite decide_False.
Qed.

Lemma alist_get_set_ne k k' v m : k <> k' -> alist_get k' (alist_set k v m) = alist_get k' m.
Proof.
  intros Hne. induction m as [| [k0 v0] m IH]; simpl.
  - rewrite decide_False by congruence. reflexivity.
  - destruct (decide (k = k0)) as [->|Hne0]; simpl.
    + now rewrite !decide_False by congruence.
    + destruct (decide (k' = k0)); [reflexivity | exact IH].
Qed.

Lemma alist_get_del_eq k m : NoDup (map fst m) -> alist_get k (alist_del k m) = None.
Proof.
  induction m as [| [k' v'] m IH]; simpl; intros Hnd; [reflexivity|].
  apply NoDup_cons in Hnd as [Hk Hnd].
  destruct (decide (k = k')) as [->|Hne]; simpl.
  - clear IH. induction m as [| [k0 v0] m IH]; simpl; [reflexivity|].
    destruct (decide (k' = k0)) as [->|Hne].
    + exfalso. apply Hk. simpl. now left.
    + apply IH.
      * intros H0. apply Hk. simpl. now right.
      * simpl in Hnd. now apply NoDup_cons in Hnd as [_ Hnd].
  - rewrite decide_False by congruence. now apply IH.
Qed.

Lemma map_fst_alist_set k v m :
  map fst (alist_set k v m) = if bool_decide (k ∈ map fst m) then map fst m
                              else map fst m ++ [k].
Proof.
  induction m as [| [k' v'] m IH]; simpl.
  - reflexivity.
  - destruct (decide (k = k')) as [->|Hne]; simpl.
    + rewrite bool_decide_true by (now left). reflexivity.
    + rewrite IH. destruct (bool_decide (k ∈ map fst m)) eqn:E.
      * apply bool_decide_eq_true in E. rewrite bool_decide_true by (now right). reflexivity.
      * apply bool_decide_eq_false in E.
        rewrite bool_decide_false; [reflexivity|].
        intros Hin. apply elem_of_cons in Hin as [Hin | Hin]; congruence.
Qed.

Lemma NoDup_alist_set k v m : NoDup (map fst m) -> NoDup (map fst (alist_set k v m)).
Proof.
  intros Hnd. rewrite map_fst_alist_set.
  destruct (bool_decide (k ∈ map fst m)) eqn:E; [exact Hnd|].
  apply bool_decide_eq_false in E. apply NoDup_app. repeat split.
  - exact Hnd.
  - intros x Hx Hin. apply list_elem_of_singleton in Hin. now subst.
  - apply NoDup_singleton.
Qed.

(** With distinct keys, looking a key up and finding its entry agree. *)
Lemma alist_get_Some_elem k v m : alist_get k m = Some v -> (k, v) ∈ m.
Proof.
  induction m as [| [k' v'] m IH]; simpl; [discriminate|].
  destruct (decide (k = k')) as [->|Hne].
  - intros [= ->]. now left.
  - intros H0. right. now apply IH.
Qed.

Lemma elem_alist_get k v m : NoDup (map fst m) -> (k, v) ∈ m -> alist_get k m = Some v.
Proof.
  induction m as [| [k' v'] m IH]; simpl; intros Hnd Hin; [inversion Hin|].
  apply NoDup_cons in Hnd as [Hk Hnd].
  apply elem_of_cons in Hin as [Heq | Hin].
  - injection Heq as -> ->. now rewrite decide_True.
  - destruct (decide (k = k')) as [->|Hne].
    + exfalso. apply Hk. apply list_elem_of_fmap. exists (k', v). auto.
    + now apply IH.
Qed.

Lemma elem_of_set_add (x y : K) s : x ∈ set_add y s <-> x = y \/ x ∈ s.
Proof.
  unfold set_add, set_has. destruct (bool_decide (y ∈ s)) eqn:E.
  - apply bool_decide_eq_true in E. split; [auto|]. intros [-> | H0]; auto.
  - rewrite elem_of_app, list_elem_of_singleton. tauto.
Qed.

Lemma elem_of_set_del (x y : K) s : x ∈ set_del y s <-> x ∈ s /\ x <> y.
Proof. unfold set_del. rewrite list_elem_of_filter. tauto. Qed.


End ordered_facts.

End OrderedFacts.

(** * Facts about the observable layer *)

Module ReactiveFacts.
Import Reactive.

(** ** Wrapping: [r] *)

#[local] Arguments r_finish : simpl never.
#[local] Arguments r_registry : simpl never.

Lemma r_finish_is_proxy rs rid arr acc :
  exists a st', r_finish rs rid arr acc = (VRef a, st').
Proof. destruct acc as [[src children] st]. simpl. eauto. Qed.

(** The guard of [r]: a value that is not [typeof 'object'] comes back
    untouched, and so does the state. *)
Lemma r_passes_non_objects data rs st :
  typeof_object data = false -> r data rs st = (data, st).
Proof.
  intros H. destruct data as [p | f | id arr props | a]; simpl in *;
    try discriminate; try reflexivity.
  destruct p; simpl in *; try discriminate; reflexivity.
Qed.

Lemma r_passes_reactive data rs st :
  isR data = true -> r data rs st = (data, st).
Proof.
  intros H. destruct data as [p | f | id arr props | a]; simpl in *;
    try discriminate; try reflexivity.
  now rewrite H.
Qed.

(** Whatever [r] is given, what it returns is reactive or not an object. *)
Lemma r_result data rs st :
  isR (r data rs st).1 = true \/ typeof_object (r data rs st).1 = false.
Proof.
  destruct data as [p | f | id arr props | a]; simpl.
  - destruct p; simpl; auto.
    destruct (r_registry rs st) as [rid st1].
    destruct (r_finish_is_proxy rs rid false ([], [], st1)) as (a & st' & ->). auto.
  - auto.
  - destruct (match alist_get "$on" props with Some (VFun _) => true | _ => false end) eqn:E;
      simpl.
    + left. simpl. exact E.
    + destruct (r_registry rs st) as [rid st1].
      match goal with
      | |- context [r_finish rs rid arr ?acc] =>
          destruct (r_finish_is_proxy rs rid arr acc) as (a & st' & ->)
      end. auto.
  - auto.
Qed.

(** C8 at its failing input.  [typeof null] is ['object'] and [isR(null)]
    is false, so [r(null)] does not take the early return: it allocates a
    proxy over an empty source and returns that proxy, not [null]. *)
Theorem r_wraps_null (st : state) :
  exists a st',
    r (VPrim PNull) None st = (VRef a, st')
    /\ VRef a <> VPrim PNull
    /\ proxies st' !! a
       = Some {| proxySource := []; isArray := false; reg := next st; _p := None |}.
Proof.
  cbn. unfold r_registry, r_finish. cbn.
  eexists _, _. split; [reflexivity|]. split; [discriminate|].
  cbn. apply lookup_insert_eq.
Qed.

(** C9.  Wrapping an object and wrapping the result again gives the very
    same value, and the second call changes nothing in the store. *)
Theorem wrap_idempotent (x : jsval) (rs rs' : option rstate) (st : state) :
  typeof_object x = true ->
  r (r x rs st).1 rs' (r x rs st).2 = r x rs st
  /\ strict_eq (r (r x rs st).1 rs' (r x rs st).2).1 (r x rs st).1 = true.
Proof.
  intros Hobj.
  assert (Hfix : r (r x rs st).1 rs' (r x rs st).2 = r x rs st).
  { destruct (r_result x rs st) as [H | H].
    - rewrite (r_passes_reactive _ _ _ H). now destruct (r x rs st).
    - rewrite (r_passes_non_objects _ _ _ H). now destruct (r x rs st). }
  split; [exact Hfix|]. rewrite Hfix.
  destruct (r_result x rs st) as [H | H].
  - destruct (r x rs st).1 as [p | f | id arr props | a]; simpl in *;
      try discriminate; apply Nat.eqb_refl.
  - (* an object is never returned as a non-object *)
    exfalso. destruct x as [p | f | id arr props | a]; simpl in *; try discriminate.
    + destruct p; simpl in *; try discriminate.
      destruct (r_registry rs st) as [rid st1].
      destruct (r_finish_is_proxy rs rid false ([], [], st1)) as (a & st' & E).
      rewrite E in H. discriminate.
    + destruct (match alist_get "$on" props with Some (VFun _) => true | _ => false end) eqn:E;
        simpl in H.
      * discriminate.
      * destruct (r_registry rs st) as [rid st1].
        match type of H with
        | context [r_finish rs rid arr ?acc] =>
            destruct (r_finish_is_proxy rs rid arr acc) as (a & st' & E')
        end.
        rewrite E' in H. discriminate.
Qed.

Lemma wrap_idempotent_witness :
  typeof_object sample_object = true
  /\ r (r sample_object None empty_state).1 None (r sample_object None empty_state).2
     = r sample_object None empty_state
  /\ strict_eq
       (r (r sample_object None empty_state).1 None (r sample_object None empty_state).2).1
       (r sample_object None empty_state).1 = true.
Proof.
  split; [reflexivity|].
  apply (wrap_idempotent sample_object None None empty_state). reflexivity.
Defined.

End ReactiveFacts.

(** * Frames: what each operation leaves alone *)

Module ReactiveFrames.
Import Reactive.

#[local] Arguments r_finish : simpl never.
#[local] Arguments r_registry : simpl never.

Lemma same_sched_refl st : same_sched st st.
Proof. repeat split. Qed.

Lemma same_sched_trans st1 st2 st3 :
  same_sched st1 st2 -> same_sched st2 st3 -> same_sched st1 st3.
Proof.
  intros (a1 & a2 & a3 & a4 & a5) (b1 & b2 & b3 & b4 & b5).
  repeat split; congruence.
Qed.



Lemma same_sched_with_proxies f st : same_sched st (with_proxies f st).
Proof. repeat split. Qed.

Lemma same_sched_with_regs f st : same_sched st (with_regs f st).
Proof. repeat split. Qed.

Lemma same_sched_with_next n st : same_sched st (with_next n st).
Proof. repeat split. Qed.



Lemma same_sched_set_parent a p st : same_sched st (set_parent a p st).
Proof. apply same_sched_with_proxies. Qed.


Lemma same_sched_proxy_dep add a p c st : same_sched st (proxy_dep add a p c st).
Proof.
  unfold proxy_dep. destruct (proxies st !! a); [apply same_sched_with_regs|apply same_sched_refl].
Qed.







Lemma r_unfold_object id arr props rs st :
  r (VObj id arr props) rs st
  = if isR (VObj id arr props) || negb (typeof_object (VObj id arr props))
    then (VObj id arr props, st)
    else let '(rid, st) := r_registry rs st in
         r_finish rs rid arr (copy_properties props ([], [], st)).
Proof. reflexivity. Qed.




(** ** Notifications *)

















End ReactiveFrames.

(** * Plain property writes *)

Module ReactiveWrites.
Import Reactive ReactiveFrames.








End ReactiveWrites.

(** * Watchers: evaluation and the subscription diff *)

Module ReactiveWatch.
Import Reactive ReactiveFrames OrderedFacts.

(** ** Evaluation reads the proxies and writes the collector *)








(** ** What a tracker records *)









(** ** Registries under [$on] and [$off] *)

Lemma members_dep add p c rg q c' :
  c' ∈ members q (dep add p c rg)
  <-> if add then c' ∈ members q rg \/ (q = p /\ c' = c)
      else c' ∈ members q rg /\ ~ (q = p /\ c' = c).
Proof.
  unfold members, dep. simpl. destruct (decide (p = q)) as [->|Hne].
  - rewrite alist_get_set_eq. simpl. destruct add.
    + rewrite elem_of_set_add. tauto.
    + rewrite elem_of_set_del. tauto.
  - rewrite alist_get_set_ne by exact Hne. destruct add.
    + split; [auto|]. intros [H0 | [-> _]]; [exact H0 | congruence].
    + split; [|tauto]. intros H0. split; [exact H0|]. intros [-> _]. congruence.
Qed.

Lemma member_alter add p c rid rs c' rid' q :
  member c' rid' q (alter (dep add p c) rid rs)
  <-> if add then member c' rid' q rs
                  \/ (rid' = rid /\ q = p /\ c' = c /\ is_Some (rs !! rid))
      else member c' rid' q rs /\ ~ (rid' = rid /\ q = p /\ c' = c).
Proof.
  unfold member. destruct (decide (rid = rid')) as [->|Hne].
  - rewrite lookup_alter_eq. destruct (rs !! rid') as [rg|] eqn:E; simpl.
    + split.
      * intros (rg' & [= <-] & Hm). apply members_dep in Hm. destruct add.
        -- destruct Hm as [Hm | [-> ->]]; [left; eauto | right; eauto].
        -- destruct Hm as [Hm Hn]. split; [eauto|]. intros (_ & -> & ->). now apply Hn.
      * intros H0. eexists. split; [reflexivity|]. apply members_dep. destruct add.
        -- destruct H0 as [(rg' & [= <-] & Hm) | (_ & -> & -> & _)]; auto.
        -- destruct H0 as [(rg' & [= <-] & Hm) Hn]. split; [exact Hm|].
           intros [-> ->]. now apply Hn.
    + destruct add.
      * split; [intros (rg & H0 & _); discriminate|].
        intros [(rg & H0 & _) | (_ & _ & _ & [x Hx])]; discriminate.
      * split; [intros (rg & H0 & _); discriminate|].
        intros [(rg & H0 & _) _]; discriminate.
  - rewrite lookup_alter_ne by exact Hne. destruct add.
    + split; [auto|]. intros [H0 | (-> & _)]; [exact H0 | congruence].
    + split; [|tauto]. intros H0. split; [exact H0|]. intros (-> & _). congruence.
Qed.



Lemma proxy_dep_regs add a p c st :
  regs (proxy_dep add a p c st)
  = match proxies st !! a with
    | Some px => alter (dep add p c) (reg px) (regs st)
    | None => regs st
    end.
Proof. unfold proxy_dep. destruct (proxies st !! a); reflexivity. Qed.

Lemma proxy_dep_proxies add a p c st : proxies (proxy_dep add a p c st) = proxies st.
Proof. unfold proxy_dep. destruct (proxies st !! a); reflexivity. Qed.



(** ** The two loops of [callFn] as lists of calls *)

Lemma fold_left_nested {A B C : Type} (F : A -> B -> C -> C) (G : A * list B -> list B)
  (deps : list (A * list B)) : forall st,
  fold_left (fun st entry => fold_left (fun st prop => F entry.1 prop st) (G entry) st) deps st
  = fold_left (fun st (ap : A * B) => F ap.1 ap.2 st)
      (flat_map (fun entry => map (fun p => (entry.1, p)) (G entry)) deps) st.
Proof.
  induction deps as [| entry deps IH]; intros st; simpl; [reflexivity|].
  rewrite fold_left_app, IH. f_equal.
  generalize (G entry). intros ps. revert st.
  induction ps as [| p ps IHp]; intros st; simpl; [reflexivity | apply IHp].
Qed.




(** ** [callFn] *)




End ReactiveWatch.

(** * Batching: one flush per turn, one run per watcher *)

Module ReactiveBatch.
Import Reactive ReactiveFrames OrderedFacts ReactiveWatch.

(** ** The pending set under a turn's notifications *)




(** ** One evaluation *)



(** ** A flush *)





End ReactiveBatch.

(** * The observable layer on concrete stores *)

Module ReactiveExamples.
Import Reactive ReactiveFrames ReactiveWatch ReactiveBatch.




End ReactiveExamples.

(** * Facts about partials *)

Module PartialFacts.
Import Partial.

(** ** [partial.add] *)

Lemma app_nil_end (xs : list nat) : xs ++ [] = xs.
Proof. apply app_nil_r. Qed.

Lemma add_value (v : prim) (pw : partial * world) :
  add (TVal v) pw
  = if truthy v || bool_decide (v = PNum 0) then Some (text_chunk_added v pw)
    else Some pw.
Proof.
  destruct pw as [p wd]. unfold add, add_ignores.
  destruct (truthy v) eqn:Ht; simpl.
  - unfold text_chunk_added; simpl. now rewrite app_nil_end.
  - destruct (bool_decide (v = PNum 0)) eqn:Hz; simpl.
    + unfold text_chunk_added; simpl. now rewrite app_nil_end.
    + reflexivity.
Qed.

(** C10.  Adding [null], [undefined], [false] or the empty string leaves
    the partial (its chunks, its accumulated markup, its counter [l]) and
    the document as they were; adding [0] appends a text chunk for [0]:
    one more chunk, the bookend appended to the markup, [l] incremented.
    More generally a value that is not a template is ignored exactly when
    it is falsy and not [0].  A partial given only [0] renders a text node
    reading ["0"]. *)
Theorem add_falsy_is_ignored_except_zero (pw : partial * world) :
  add (TVal PNull) pw = Some pw
  /\ add (TVal PUndef) pw = Some pw
  /\ add (TVal (PBool false)) pw = Some pw
  /\ add (TVal (PStr EmptyString)) pw = Some pw
  /\ (exists pw',
        add (TVal (PNum 0)) pw = Some pw'
        /\ length (chunks pw'.1) = S (length (chunks pw.1))
        /\ p_html pw'.1 = p_html pw.1 +:+ bookendComment
        /\ l pw'.1 = S (l pw.1)
        /\ (exists c ck, last (chunks pw'.1) = Some c
                         /\ chunk_store pw'.2 !! c = Some ck
                         /\ tpl ck = TVal (PNum 0)))
  /\ (forall v : prim,
        add (TVal v) pw
        = if truthy v || bool_decide (v = PNum 0) then Some (text_chunk_added v pw)
          else Some pw)
  /\ (forall createNodes g wd,
        exists n p' wd',
          add (TVal (PNum 0)) (createPartial g, wd) ≫= render createNodes
          = Some (RText n, p', wd')
          /\ nodes wd' !! n = Some {| kind := KText; nodeValue := "0"; tags := [] |}).
Proof.
  split; [now rewrite add_value|].
  split; [now rewrite add_value|].
  split; [now rewrite add_value|].
  split; [now rewrite add_value|].
  split; [|split].
  - exists (text_chunk_added (PNum 0) pw). rewrite add_value. simpl.
    split; [reflexivity|]. split; [rewrite length_app; simpl; lia|].
    split; [reflexivity|]. split; [reflexivity|].
    exists (S (fresh pw.2)), {| html := EmptyString; exp := []; dom := fresh pw.2;
                               tpl := TVal (PNum 0); key := 0 |}.
    split; [apply last_snoc|]. split; [|reflexivity].
    simpl. apply lookup_insert_eq.
  - intros v. apply add_value.
  - intros createNodes g wd. rewrite add_value. simpl.
    unfold render, text_chunk_added; simpl.
    rewrite lookup_insert_eq. simpl.
    unfold get_dom; simpl. rewrite lookup_insert_eq. simpl.
    eexists _, _, _. split; [reflexivity|].
    simpl. apply lookup_insert_eq.
Qed.

End PartialFacts.

(** * Facts about reconciliation *)

Module ReconcileFacts.
Import Partial.

(** ** What the helpers leave alone *)

Lemma assignDomChunks_frame ps : forall g cs i acc w0 ns w1,
  assignDomChunks g cs ps i acc w0 = Some (ns, w1) ->
  trace w1 = trace w0 /\ descs w1 = descs w0 /\ children w1 = children w0
  /\ chunk_store w1 = chunk_store w0.
Proof.
  induction ps as [| [|k v] ps IH]; intros g cs i acc w0 ns w1; simpl.
  - intros [= _ <-]. auto.
  - apply IH.
  - destruct (cs !! i) as [c|]; [|discriminate].
    destruct (chunk_store w0 !! c) as [ck|]; [|discriminate].
    intros H. apply IH in H. simpl in H. exact H.
Qed.

Lemma render_frame createNodes pw fr p w1 :
  render createNodes pw = Some (fr, p, w1) ->
  trace w1 = trace pw.2 /\ descs w1 = descs pw.2 /\ children w1 = children pw.2
  /\ l p = 0 /\ group p = group pw.1.
Proof.
  unfold render. destruct pw as [p0 w0]. simpl.
  set (start := if (length (chunks p0) =? 0)%nat then addPlaceholderChunk [] (p0, w0)
                else (p0, w0)).
  assert (Hs : trace start.2 = trace w0 /\ descs start.2 = descs w0
               /\ children start.2 = children w0 /\ group start.1 = group p0).
  { subst start. destruct (length (chunks p0) =? 0)%nat; simpl; auto. }
  destruct start as [p1 w1']. simpl in Hs. destruct Hs as (h1 & h2 & h3 & h4).
  intros H. repeat case_match; simplify_eq; simpl; rewrite ?h1, ?h2, ?h3, ?h4; auto;
    match goal with
    | E : assignDomChunks _ _ _ _ _ _ = Some _ |- _ =>
        apply assignDomChunks_frame in E; destruct E as (e1 & e2 & e3 & _);
        rewrite e1, e2, e3, ?h1, ?h2, ?h3; auto
    end.
Qed.

Lemma transferChunks_frame src : forall chunksB i w0 w1,
  transferChunks src chunksB i w0 = Some w1 ->
  trace w1 = trace w0 /\ descs w1 = descs w0 /\ children w1 = children w0
  /\ nodes w1 = nodes w0 /\ dom_store w1 = dom_store w0 /\ fresh w1 = fresh w0.
Proof.
  induction src as [| c src IH]; intros chunksB i w0 w1; simpl.
  - intros [= <-]. repeat split.
  - destruct (chunk_store w0 !! c) as [ck|]; [|discriminate].
    destruct (chunksB !! i) as [b|]; [|discriminate].
    intros H. apply IH in H. simpl in H. exact H.
Qed.

(** Closing the sub-partial leaves the main partial, the descriptors and
    the trace as they are, and leaves the sub-partial empty. *)
Lemma closeSubPartial_frame createNodes u u1 :
  closeSubPartial createNodes u = Some u1 ->
  main u1 = main u /\ trace (wd u1) = trace (wd u) /\ descs (wd u1) = descs (wd u)
  /\ l (subPartial u1) = 0 /\ group (subPartial u1) = group (subPartial u).
Proof.
  unfold closeSubPartial. destruct (l (subPartial u) =? 0)%nat eqn:El.
  - intros [= <-]. apply Nat.eqb_eq in El. auto.
  - destruct (render createNodes (subPartial u, wd u)) as [[[frag sub] w1]|] eqn:Er;
      [|discriminate].
    destruct (lastNode u) as [ln|]; [|discriminate].
    match goal with |- context [transferChunks ?a ?b ?c ?d] =>
      destruct (transferChunks a b c d) as [w3|] eqn:Et end; [|discriminate].
    intros [= <-]. simpl.
    apply render_frame in Er. simpl in Er. destruct Er as (r1 & r2 & r3 & r4 & r5).
    apply transferChunks_frame in Et. simpl in Et. destruct Et as (t1 & t2 & _).
    rewrite t1, t2, r1, r2. auto.
Qed.


(** ** Rebinding *)




(** ** The loop body, rule by rule *)





Lemma desc_up_frame d expression w0 w1 :
  desc_up d expression w0 = Some w1 ->
  nodes w1 = nodes w0 /\ children w1 = children w0 /\ dom_store w1 = dom_store w0
  /\ chunk_store w1 = chunk_store w0 /\ fresh w1 = fresh w0.
Proof.
  unfold desc_up. destruct (descs w0 !! d) as [ds|]; [|discriminate].
  destruct (observer ds); intros [= <-]; repeat split.
Qed.

Lemma rebind_frame olds : forall news w0 w1,
  rebind olds news w0 = Some w1 ->
  nodes w1 = nodes w0 /\ children w1 = children w0 /\ dom_store w1 = dom_store w0
  /\ chunk_store w1 = chunk_store w0 /\ fresh w1 = fresh w0.
Proof.
  induction olds as [| d olds IH]; intros news w0 w1; simpl.
  - intros [= <-]. repeat split.
  - destruct news as [| d' news]; [discriminate|].
    destruct (descs w0 !! d') as [ds'|]; [|discriminate].
    destruct (desc_up d (e ds') w0) as [w|] eqn:E; [|discriminate].
    intros H. apply IH in H. apply desc_up_frame in E.
    destruct H as (a1 & a2 & a3 & a4 & a5), E as (b1 & b2 & b3 & b4 & b5).
    repeat split; congruence.
Qed.

(** Adding to a partial creates no node and moves none. *)
Lemma add_frame v p w0 p' w1 :
  add v (p, w0) = Some (p', w1) ->
  nodes w1 = nodes w0 /\ children w1 = children w0
  /\ toRemove p' = toRemove p /\ previousChunks p' = previousChunks p.
Proof.
  unfold add. destruct (add_ignores v); [intros [= <- <-]; auto|].
  destruct v as [pv | markup exps k]; simpl.
  - intros [= <- <-]. auto.
  - destruct (if (k =? 0)%Z then None else alist_get k (keyedChunks p)) as [c|].
    + destruct (chunk_store w0 !! c) as [ck|]; [|discriminate].
      destruct (rebind (exp ck) exps w0) as [w|] eqn:E; [|discriminate].
      intros [= <- <-]. apply rebind_frame in E. destruct E as (e1 & e2 & _). auto.
    + intros [= <- <-]. auto.
Qed.

Lemma keyed_materialized_true ck w0 :
  key ck <> 0%Z -> get_dom ck w0 <> [] ->
  negb (key ck =? 0)%Z && negb (length (get_dom ck w0) =? 0)%nat = true.
Proof.
  intros Hk Hd. apply andb_true_iff. split; apply negb_true_iff.
  - now apply Z.eqb_neq.
  - apply Nat.eqb_neq. destruct (get_dom ck w0); [congruence | simpl; lia].
Qed.

Lemma keyed_materialized_false ck w0 :
  ~ (key ck <> 0%Z /\ get_dom ck w0 <> []) ->
  negb (key ck =? 0)%Z && negb (length (get_dom ck w0) =? 0)%nat = false.
Proof.
  intros Hn. apply not_true_iff_false. intros H. apply Hn.
  apply andb_true_iff in H as [H1 H2].
  apply negb_true_iff in H1, H2. split.
  - now apply Z.eqb_neq.
  - apply Nat.eqb_neq in H2. intros E. rewrite E in H2. simpl in H2. lia.
Qed.

(** C2, as the code has it.  For the chunk [c] at [index], facing the
    previous chunk at the same index and no other:
    - a key and materialised nodes: whatever the previous chunk is, the
      step only closes the pending sub-partial and (re)places the chunk's
      own nodes; no node, array, chunk or descriptor changes and nothing is
      scheduled for removal;
    - otherwise, markup equal to that of an un-keyed previous chunk: the
      chunk takes over that chunk's node array and descriptors, nothing is
      scheduled for removal and the children are not touched;
    - otherwise: the chunk's template is added to the sub-partial, nothing
      is rendered or moved yet, and the previous chunk's nodes are
      scheduled for removal exactly when there is a previous chunk and it is
      un-keyed. *)
Theorem rules_in_order (createNodes : string -> list parsed)
  (index c : nat) (u u' : upstate) (ck : chunk) :
  chunk_store (wd u) !! c = Some ck ->
  up_step createNodes index c u = Some u' ->
  let prev := previousChunks (main u) !! index ≫= (fun i => chunk_store (wd u) !! i) in
  let keyed := key ck <> 0%Z /\ get_dom ck (wd u) <> [] in
  let structural := exists pk, prev = Some pk /\ html ck = html pk /\ key pk = 0%Z in
  (keyed ->
     exists u1 ck1,
       closeSubPartial createNodes u = Some u1
       /\ chunk_store (wd u1) !! c = Some ck1
       /\ chunk_store (wd u') = chunk_store (wd u1)
       /\ dom_store (wd u') = dom_store (wd u1)
       /\ nodes (wd u') = nodes (wd u1)
       /\ fresh (wd u') = fresh (wd u1)
       /\ descs (wd u') = descs (wd u)
       /\ trace (wd u') = trace (wd u)
       /\ main u' = main u
       /\ subPartial u' = subPartial u1
       /\ lastNode u' = last (get_dom ck1 (wd u1)))
  /\ (~ keyed -> structural ->
       exists u1 ck1 pid pk1,
         closeSubPartial createNodes u = Some u1
         /\ previousChunks (main u) !! index = Some pid
         /\ chunk_store (wd u1) !! c = Some ck1
         /\ chunk_store (wd u1) !! pid = Some pk1
         /\ chunk_store (wd u') !! c = Some (reused ck1 pk1)
         /\ dom_store (wd u') = dom_store (wd u1)
         /\ children (wd u') = children (wd u1)
         /\ fresh (wd u') = fresh (wd u1)
         /\ main u' = main u
         /\ subPartial u' = subPartial u1)
  /\ (~ keyed -> ~ structural ->
       add (tpl ck) (subPartial u, wd u) = Some (subPartial u', wd u')
       /\ toRemove (main u')
          = toRemove (main u)
            ++ match prev with
               | Some pk => if (key pk =? 0)%Z then get_dom pk (wd u) else []
               | None => []
               end
       /\ startChunking u' = (if (l (subPartial u) =? 0)%nat then index else startChunking u)
       /\ lastNode u' = lastNode u
       /\ children (wd u') = children (wd u)
       /\ nodes (wd u') = nodes (wd u)).
Proof.
  intros Hc Hstep prev keyed structural.
  unfold up_step in Hstep. rewrite Hc in Hstep. fold prev in Hstep.
  unfold select_rule in Hstep.
  split; [|split].
  - (* keyed match *)
    intros [Hk Hd]. rewrite (keyed_materialized_true ck (wd u) Hk Hd) in Hstep.
    destruct (closeSubPartial createNodes u) as [u1|] eqn:Hclose; [|discriminate].
    destruct (chunk_store (wd u1) !! c) as [ck1|] eqn:Hc1; [|discriminate].
    destruct (closeSubPartial_frame _ _ _ Hclose) as (Hmain & Htrace & Hdescs & _ & _).
    exists u1, ck1. split; [reflexivity|]. split; [exact Hc1|].
    match type of Hstep with
    | match ?moved with Some _ => _ | None => _ end = _ =>
        destruct moved as [w1|] eqn:Hm; [|discriminate];
        assert (Hw : chunk_store w1 = chunk_store (wd u1) /\ dom_store w1 = dom_store (wd u1)
                     /\ nodes w1 = nodes (wd u1) /\ fresh w1 = fresh (wd u1)
                     /\ descs w1 = descs (wd u1) /\ trace w1 = trace (wd u1))
    end.
    { repeat case_match; simplify_eq; repeat split. }
    injection Hstep as <-. simpl.
    destruct Hw as (h1 & h2 & h3 & h4 & h5 & h6).
    repeat split; congruence.
  - (* structural match *)
    intros Hnk (pk & Hprev & Hhtml & Hkey).
    rewrite (keyed_materialized_false ck (wd u) Hnk) in Hstep. simpl in Hstep.
    rewrite Hprev in Hstep. rewrite Hhtml, String.eqb_refl, Hkey in Hstep. simpl in Hstep.
    destruct (closeSubPartial createNodes u) as [u1|] eqn:Hclose; [|discriminate].
    destruct (chunk_store (wd u1) !! c) as [ck1|] eqn:Hc1; [|discriminate].
    destruct (previousChunks (main u) !! index) as [pid|] eqn:Hpid;
      [|subst prev; discriminate].
    simpl in Hstep.
    destruct (chunk_store (wd u1) !! pid) as [pk1|] eqn:Hp1; [|discriminate].
    destruct (rebind (exp pk1) (exp ck1) (wd u1)) as [w1|] eqn:Hre; [|discriminate].
    apply rebind_frame in Hre. destruct Hre as (r1 & r2 & r3 & r4 & r5).
    destruct (closeSubPartial_frame _ _ _ Hclose) as (Hmain & _).
    exists u1, ck1, pid, pk1.
    split; [reflexivity|]. split; [reflexivity|]. split; [exact Hc1|].
    split; [exact Hp1|].
    injection Hstep as <-. cbn [wd main subPartial].
    match goal with
    | |- context [chunk_store ?w3 !! c] =>
        assert (Hw3 : chunk_store w3 !! c = Some (reused ck1 pk1)
                      /\ dom_store w3 = dom_store (wd u1)
                      /\ children w3 = children (wd u1)
                      /\ fresh w3 = fresh (wd u1))
    end.
    { repeat case_match; simpl; rewrite ?lookup_insert_eq, ?r2, ?r3, ?r5; auto. }
    destruct Hw3 as (h1 & h2 & h3 & h4). auto 10.
  - (* rebuild *)
    intros Hnk Hns.
    rewrite (keyed_materialized_false ck (wd u) Hnk) in Hstep. cbv beta iota in Hstep.
    assert (Hrule :
      match prev with
      | Some pk => if String.eqb (html ck) (html pk) && (key pk =? 0)%Z
                   then StructuralMatch else Rebuild
      | None => Rebuild
      end = Rebuild).
    { destruct prev as [pk|] eqn:Hprev; [|reflexivity].
      destruct (String.eqb (html ck) (html pk) && (key pk =? 0)%Z) eqn:E; [|reflexivity].
      exfalso. apply Hns. exists pk. apply andb_true_iff in E as [E1 E2].
      apply String.eqb_eq in E1. apply Z.eqb_eq in E2. auto. }
    rewrite Hrule in Hstep. cbv beta iota in Hstep.
    destruct (add (tpl ck) (subPartial u, wd u)) as [[sub w1]|] eqn:Hadd; [|discriminate].
    injection Hstep as <-. cbn [wd main subPartial startChunking lastNode].
    pose proof (add_frame _ _ _ _ _ Hadd) as (a1 & a2 & _).
    split; [reflexivity|]. split.
    + destruct prev as [pk|] eqn:Hprev; simpl; [|now rewrite app_nil_r].
      destruct (key pk =? 0)%Z eqn:Ek.
      * destruct (String.eqb (html ck) (html pk)) eqn:Eh; simpl; [|reflexivity].
        exfalso. apply Hns. exists pk.
        apply String.eqb_eq in Eh. apply Z.eqb_eq in Ek. auto.
      * rewrite andb_false_r. simpl. now rewrite app_nil_r.
    + repeat split; assumption.
Qed.

(** ** Trimming after the loop *)





Lemma siblings_after_found n front back :
  n ∉ front -> siblings_after n (front ++ n :: back) = back.
Proof.
  induction front as [| k front IH]; intros Hn; simpl.
  - now rewrite Nat.eqb_refl.
  - destruct (k =? n)%nat eqn:E.
    + apply Nat.eqb_eq in E. subst. exfalso. apply Hn. now left.
    + apply IH. intros H. apply Hn. now right.
Qed.


Lemma without_keeps ns kids :
  Forall (fun k => k ∉ ns) kids -> without ns kids = kids.
Proof.
  unfold without. induction 1 as [| k kids Hk _ IH]; [reflexivity|].
  rewrite filter_cons_True by exact Hk. now f_equal.
Qed.

Lemma without_drops ns kids :
  Forall (fun k => k ∈ ns) kids -> without ns kids = [].
Proof.
  unfold without. induction 1 as [| k kids Hk _ IH]; [reflexivity|].
  rewrite filter_cons_False by (intros H; now apply H). exact IH.
Qed.

Lemma without_app ns xs ys : without ns (xs ++ ys) = without ns xs ++ without ns ys.
Proof. unfold without. apply filter_app. Qed.

Lemma without_middle front mid back :
  NoDup (front ++ mid ++ back) -> without mid (front ++ mid ++ back) = front ++ back.
Proof.
  intros Hnd. apply NoDup_app in Hnd as (_ & Hfront & Hnd).
  apply NoDup_app in Hnd as (_ & Hmid & _).
  rewrite !without_app.
  rewrite (without_keeps mid front), (without_drops mid mid), (without_keeps mid back);
    [reflexivity | | | ].
  - apply Forall_forall. intros x Hx Hin. apply (Hmid x Hin Hx).
  - apply Forall_forall. auto.
  - apply Forall_forall. intros x Hx Hin.
    apply (Hfront x Hx). apply elem_of_app. now left.
Qed.




End ReconcileFacts.

(** * The reconciler on concrete lists *)

Module ReconcileExamples.
Import Partial ReconcileFacts.



(** The step at index 0 of re-rendering [keyed A, B] as [C, B]. *)
Lemma rules_in_order_witness :
  chunk_store (wd rebuild_start) !! 107 = Some chunkC_new
  /\ up_step toy_createNodes 0 107 rebuild_start = Some rebuild_next
  /\ l (subPartial rebuild_next) = 1
  /\ toRemove (main rebuild_next) = []
  /\ children (wd rebuild_next) = [104; 105].
Proof.
  split; [vm_compute; reflexivity|]. split; [vm_compute; reflexivity|].
  destruct (rules_in_order toy_createNodes 0 107 rebuild_start rebuild_next chunkC_new)
    as (_ & _ & H3); [vm_compute; reflexivity | vm_compute; reflexivity |].
  destruct H3 as (Hadd & Hrem & _ & _ & Hkids & _).
  - intros [Hk _]. apply Hk. reflexivity.
  - intros (pk & Hprev & Hhtml & _). vm_compute in Hprev. injection Hprev as <-.
    vm_compute in Hhtml. discriminate.
  - split; [vm_compute; reflexivity|]. split; [exact Hrem | exact Hkids].
Defined.

(** C2 as stated fails when the previous chunk at the index is keyed: the
    third rule applies to [C] at index 0 (no key; the previous chunk is
    keyed), the new chunk goes to the sub-partial, but the previous chunk's
    node [104] is not scheduled for removal, and after the whole update it
    is still in the tree, between the new nodes. *)
Lemma keyed_previous_not_scheduled :
  up_step toy_createNodes 0 107 rebuild_start = Some rebuild_next
  /\ select_rule chunkC_new
       (previousChunks (main rebuild_start) !! 0
        ≫= (fun i => chunk_store (wd rebuild_start) !! i)) (wd rebuild_start) = Rebuild
  /\ (fun pk => get_dom pk (wd rebuild_start))
     <$> (previousChunks (main rebuild_start) !! 0
          ≫= (fun i => chunk_store (wd rebuild_start) !! i)) = Some [104]
  /\ toRemove (main rebuild_next) = []
  /\ (children ∘ snd <$> (keyed_then_plain ≫= setNode_update toy_createNodes [tplC; tplB]))
     = Some [112; 104; 105].
Proof. repeat split; vm_compute; reflexivity. Qed.


End ReconcileExamples.

(** * More on the template compiler: memoisation *)

Module TemplateMemo.
Import Template TemplateFacts.

Lemma append_empty (a b : string) : a +:+ b = EmptyString -> a = EmptyString /\ b = EmptyString.
Proof. destruct a; [intros H; split; [reflexivity | exact H] | discriminate]. Qed.

(** A slot that contributes a function contributes markup too: the
    placeholder comment. *)
Lemma silent_slot_has_no_funs (s : slot) : slot_markup s = EmptyString -> slot_funs s = [].
Proof.
  induction s as [f | items IH | p] using slot_nested_ind; simpl.
  - discriminate.
  - induction IH as [| x rest Hx _ IHrest]; simpl; [reflexivity |].
    intros H. apply append_empty in H as [Hx' Hrest].
    now rewrite (Hx Hx'), (IHrest Hrest).
  - reflexivity.
Qed.

Lemma silent_markup_has_no_funs (slots : list slot) (strs : list string) (i : nat) :
  markup_from slots strs i = EmptyString -> funs_from slots strs i = [].
Proof.
  revert i. induction strs as [| strVal rest IH]; intros i; simpl; [reflexivity |].
  intros H. apply append_empty in H as [_ H]. apply append_empty in H as [Htop Hrest].
  rewrite (IH _ Hrest), app_nil_r.
  unfold top_markup, top_funs in *. destruct (slots !! i) as [s|]; [|reflexivity].
  destruct (is_undefined s); [reflexivity |]. now apply silent_slot_has_no_funs.
Qed.

(** The first [toString()] of a fresh template. *)
Lemma toString_fresh (strs : list string) (slots : list slot) :
  toString (t strs slots)
  = if is_empty_template (t strs slots)
    then ("<!---->",
          {| strings := strs; expSlots := slots; str := "<!---->";
             expressions := []; _k := 0 |})
    else (markup_from slots strs 0,
          {| strings := strs; expSlots := slots; str := markup_from slots strs 0;
             expressions := map fresh_descriptor (funs_from slots strs 0); _k := 0 |}).
Proof.
  unfold toString. cbn [str t]. change (String.eqb EmptyString EmptyString) with true.
  cbn [negb]. destruct (is_empty_template _); [reflexivity |].
  cbn [strings expSlots expressions _k]. rewrite interlaceTemplate_app. reflexivity.
Qed.

(** [toString()] a second time: the same markup, and the template object --
    its list of expression descriptors in particular -- is left as the first
    call made it.  When the markup is not empty the memo [str] answers;
    when it is empty, [!str] holds again and the markup is recomputed, but
    an empty markup has no function slot, so nothing is pushed twice. *)
Theorem toString_twice (strs : list string) (slots : list slot) :
  let first := toString (t strs slots) in
  toString first.2 = (first.1, first.2)
  /\ (_h (_h (t strs slots)).2) = _h (t strs slots).
Proof.
  assert (H : toString (toString (t strs slots)).2
              = ((toString (t strs slots)).1, (toString (t strs slots)).2)).
  { rewrite toString_fresh.
    destruct (is_empty_template (t strs slots)) eqn:E; [reflexivity |].
    cbn [fst snd]. unfold toString. cbn [str].
    destruct (String.eqb (markup_from slots strs 0) EmptyString) eqn:Em; cbn [negb];
      [| reflexivity].
    apply String.eqb_eq in Em.
    change (is_empty_template _) with (is_empty_template (t strs slots)). rewrite E.
    cbn [strings expSlots expressions _k].
    rewrite interlaceTemplate_app. cbn [fst snd].
    rewrite (silent_markup_has_no_funs _ _ _ Em), Em. reflexivity. }
  split; [exact H |].
  unfold _h. cbv zeta. cbn [fst snd]. rewrite H. reflexivity.
Qed.

End TemplateMemo.

(** * More on the observable layer: registries, merging, flush order *)

Module RegistryFacts.
Import Reactive OrderedFacts ReactiveWatch.

Lemma alist_set_same {K V : Type} `{EqDecision K} (k : K) (v : V) (m : list (K * V)) :
  alist_set k v (alist_set k v m) = alist_set k v m.
Proof.
  induction m as [| [k' v'] m IH]; simpl.
  - now rewrite decide_True.
  - destruct (decide (k = k')) as [->|Hne]; simpl.
    + now rewrite decide_True.
    + rewrite decide_False by exact Hne. now rewrite IH.
Qed.

Lemma set_add_present {K : Type} `{EqDecision K} (x : K) (s : list K) :
  x ∈ s -> set_add x s = s.
Proof. intros H. unfold set_add, set_has. now rewrite bool_decide_true. Qed.

Lemma set_add_twice {K : Type} `{EqDecision K} (x : K) (s : list K) :
  set_add x (set_add x s) = set_add x s.
Proof. apply set_add_present, elem_of_set_add. now left. Qed.

Lemma set_del_absent {K : Type} `{EqDecision K} (x : K) (s : list K) :
  x ∉ s -> set_del x s = s.
Proof.
  unfold set_del. induction s as [| y s IH]; intros H; [reflexivity |].
  apply not_elem_of_cons in H as [Hne Hs].
  rewrite filter_cons_True by congruence. now rewrite IH.
Qed.

Lemma set_del_add_absent {K : Type} `{EqDecision K} (x : K) (s : list K) :
  x ∉ s -> set_del x (set_add x s) = s.
Proof.
  intros H. unfold set_add, set_has. rewrite bool_decide_false by exact H.
  unfold set_del. rewrite filter_app, filter_cons_False by (intros Hn; now apply Hn).
  rewrite filter_nil, app_nil_r. now apply set_del_absent.
Qed.

(** The reverse index after [dep]: the counterpart of [members_dep]. *)
Lemma watched_by_dep add p c rg q c' :
  q ∈ watched_by c' (dep add p c rg)
  <-> if add then q ∈ watched_by c' rg \/ (q = p /\ c' = c)
      else q ∈ watched_by c' rg /\ ~ (q = p /\ c' = c).
Proof.
  unfold watched_by, dep. simpl. destruct (decide (c = c')) as [->|Hne].
  - rewrite alist_get_set_eq. simpl. destruct add.
    + rewrite elem_of_set_add. tauto.
    + rewrite elem_of_set_del. tauto.
  - rewrite alist_get_set_ne by exact Hne. destruct add.
    + split; [auto|]. intros [H0 | [_ ->]]; [exact H0 | congruence].
    + split; [|tauto]. intros H0. split; [exact H0|]. intros [_ ->]. congruence.
Qed.

(** [$on] and [$off] keep the two maps of a registry in step: a callback
    is listed under a property in [observers] exactly when the property is
    listed under the callback in [observerProperties].  The registry [r]
    starts with, two empty maps, is in step. *)
Theorem dep_keeps_mirror (add : bool) (p : string) (c : callback) (rg : registry) :
  mirrored rg -> mirrored (dep add p c rg).
Proof.
  intros H q c'. rewrite members_dep, watched_by_dep. specialize (H q c').
  destruct add; tauto.
Qed.

Lemma dep_keeps_mirror_witness :
  mirrored (dep true "a" (CbQueued 1) {| observers := []; observerProperties := [] |})
  /\ CbQueued 1 ∈ members "a" (dep true "a" (CbQueued 1)
                                 {| observers := []; observerProperties := [] |}).
Proof.
  split.
  - apply (dep_keeps_mirror true "a" (CbQueued 1)
             {| observers := []; observerProperties := [] |}).
    intros q c'. unfold members, watched_by. simpl. split; intros H; inversion H.
  - vm_compute. apply list_elem_of_here.
Defined.

(** Subscribing twice is subscribing once; unsubscribing leaves the
    callback out whatever was there; and [$on] followed by [$off] gives back
    the subscribers a property had, in their order, when the callback was
    not among them. *)
Theorem on_off_round_trip (p : string) (c : callback) (rg : registry) :
  dep true p c (dep true p c rg) = dep true p c rg
  /\ (c ∉ members p (dep false p c rg))
  /\ ((c ∉ members p rg) -> members p (dep false p c (dep true p c rg)) = members p rg).
Proof.
  split; [| split].
  - unfold dep. cbn [observers observerProperties].
    rewrite !alist_get_set_eq. simpl default.
    rewrite !set_add_twice. now rewrite !alist_set_same.
  - rewrite members_dep. tauto.
  - intros H. unfold members, dep in *. cbn [observers observerProperties].
    rewrite !alist_get_set_eq. cbn [default]. now apply set_del_add_absent.
Qed.

Lemma on_off_round_trip_witness :
  (CbExt 2 ∉ members "name" sample_registry)
  /\ members "name" (dep false "name" (CbExt 2) (dep true "name" (CbExt 2) sample_registry))
     = [CbExt 1].
Proof.
  assert (H : CbExt 2 ∉ members "name" sample_registry).
  { vm_compute. intros H. apply list_elem_of_singleton in H. discriminate. }
  split; [exact H |].
  destruct (on_off_round_trip "name" (CbExt 2) sample_registry) as (_ & _ & Hrt).
  rewrite (Hrt H). reflexivity.
Defined.

End RegistryFacts.

Module MergeFacts.
Import Reactive OrderedFacts ReactiveFrames ReactiveWatch.

Lemma subscribers_member c a p st :
  c ∈ subscribers a p st
  <-> exists px, proxies st !! a = Some px /\ member c (reg px) p (regs st).
Proof.
  unfold subscribers, member, members. split.
  - destruct (proxies st !! a) as [px|] eqn:Ea; [|intros H0; inversion H0].
    destruct (regs st !! reg px) as [rg|] eqn:Er; [|intros H0; inversion H0].
    intros H0. exists px. split; [reflexivity|]. exists rg. auto.
  - intros (px & -> & rg & -> & H0). exact H0.
Qed.

Lemma is_Some_alter {A} (f : A -> A) (k k' : nat) (m : gmap nat A) :
  is_Some (alter f k m !! k') <-> is_Some (m !! k').
Proof.
  destruct (decide (k = k')) as [->|Hne].
  - rewrite lookup_alter_eq. apply fmap_is_Some.
  - now rewrite lookup_alter_ne.
Qed.

(** A run of [target.$on(property, c)] calls. *)
Lemma merge_calls_effect target pt pairs : forall st,
  proxies st !! target = Some pt ->
  let st' := fold_left (fun st (pc : string * callback) => proxy_dep true target pc.1 pc.2 st)
               pairs st in
  proxies st' = proxies st
  /\ same_sched st st'
  /\ (forall rid, is_Some (regs st' !! rid) <-> is_Some (regs st !! rid))
  /\ (forall rid, rid <> reg pt -> regs st' !! rid = regs st !! rid)
  /\ (forall c rid q,
        member c rid q (regs st')
        <-> member c rid q (regs st)
            \/ (rid = reg pt /\ (q, c) ∈ pairs /\ is_Some (regs st !! rid))).
Proof.
  induction pairs as [| [q0 c0] pairs IH] using rev_ind; intros st Ht st'.
  - subst st'. simpl. split; [reflexivity|]. split; [apply same_sched_refl|].
    split; [tauto|]. split; [auto|]. intros c rid q. split; [auto|].
    intros [H0 | (_ & Hin & _)]; [exact H0 | inversion Hin].
  - subst st'. rewrite fold_left_app. simpl.
    destruct (IH st Ht) as (P & S & D & O & M). clear IH.
    set (st1 := fold_left _ pairs st) in *.
    assert (R : regs (proxy_dep true target q0 c0 st1)
                = alter (dep true q0 c0) (reg pt) (regs st1)).
    { rewrite proxy_dep_regs, P, Ht. reflexivity. }
    split; [now rewrite proxy_dep_proxies|].
    split; [eapply same_sched_trans; [exact S | apply same_sched_proxy_dep]|].
    split; [intros rid; rewrite R, is_Some_alter; apply D|].
    split; [intros rid Hne; rewrite R, lookup_alter_ne by congruence; now apply O|].
    intros c rid q. rewrite R, member_alter, M, D.
    setoid_rewrite elem_of_app. setoid_rewrite list_elem_of_singleton.
    split.
    + intros [[H0 | (h1 & h2 & h3)] | (h1 & h2 & h3 & h4)].
      * now left.
      * right. auto.
      * right. subst. split; [reflexivity|]. split; [now right|]. exact h4.
    + intros [H0 | (h1 & [h2 | h2] & h3)].
      * left. now left.
      * left. right. auto.
      * right. injection h2 as -> ->. subst rid. auto.
Qed.

(** [reactiveMerge(target, source)]: every subscriber of a property of the
    source becomes a subscriber of the same property of the target, next
    to those the target had and no one else; the target takes the parent
    link of the source if the source has one; other proxies and the
    registries of other proxies are untouched, and nobody is notified. *)
Theorem reactiveMerge_subscribers (target source : nat) (st : state)
  (pt ps : proxy) (rs : registry) :
  proxies st !! target = Some pt ->
  proxies st !! source = Some ps ->
  regs st !! reg ps = Some rs ->
  is_Some (regs st !! reg pt) ->
  NoDup (map fst (observers rs)) ->
  let st' := reactiveMerge target source st in
  (forall p c, c ∈ subscribers target p st'
               <-> c ∈ subscribers target p st \/ c ∈ subscribers source p st)
  /\ (forall b pb p, proxies st !! b = Some pb -> reg pb <> reg pt ->
        subscribers b p st' = subscribers b p st)
  /\ _p <$> proxies st' !! target
     = Some (match _p ps with Some q => Some q | None => _p pt end)
  /\ (forall b, b <> target -> proxies st' !! b = proxies st !! b)
  /\ same_sched st st'.
Proof.
  intros Ht Hs Hrs Hrt Hnd st'.
  set (pairs := flat_map (fun entry : string * list callback =>
                            map (fun c => (entry.1, c)) entry.2) (observers rs)).
  set (st1 := fold_left (fun st (pc : string * callback) =>
                           proxy_dep true target pc.1 pc.2 st) pairs st).
  assert (E : st' = match _p ps with
                    | Some p => set_parent target (Some p) st1
                    | None => st1
                    end).
  { subst st'. unfold reactiveMerge. rewrite Hs, Hrs. cbv zeta.
    rewrite (fold_left_nested (fun q c st => proxy_dep true target q c st)
               (fun entry => entry.2) (observers rs) st).
    reflexivity. }
  destruct (merge_calls_effect target pt pairs st Ht) as (P & S & D & O & M).
  fold st1 in P, S, D, O, M.
  assert (Hpairs : forall q c, (q, c) ∈ pairs <-> c ∈ members q rs).
  { intros q c. unfold pairs, members. rewrite list_elem_of_In, in_flat_map. split.
    - intros ([q' cs] & Hin & Hc). apply list_elem_of_In in Hin.
      apply in_map_iff in Hc as (c' & [= <- <-] & Hc). simpl in *.
      rewrite (elem_alist_get _ _ _ Hnd Hin). simpl. now apply list_elem_of_In.
    - destruct (alist_get q (observers rs)) as [cs|] eqn:Ec; [|intros H0; inversion H0].
      simpl. intros Hc. exists (q, cs). split.
      + apply list_elem_of_In. now apply alist_get_Some_elem.
      + apply in_map_iff. exists c. split; [reflexivity | now apply list_elem_of_In]. }
  assert (R' : regs st' = regs st1) by (rewrite E; destruct (_p ps); reflexivity).
  assert (Preg : forall b, reg <$> proxies st' !! b = reg <$> proxies st !! b).
  { intros b. rewrite E. destruct (_p ps) as [q|]; [|now rewrite P].
    unfold set_parent. simpl. rewrite P. destruct (decide (target = b)) as [->|Hne].
    - rewrite lookup_alter_eq. destruct (proxies st !! b); reflexivity.
    - now rewrite lookup_alter_ne. }
  assert (Hsub : forall b p, subscribers b p st'
                   = match proxies st !! b with
                     | Some px => match regs st1 !! reg px with
                                  | Some rg => members p rg
                                  | None => []
                                  end
                     | None => []
                     end).
  { intros b p. unfold subscribers. rewrite R'. specialize (Preg b).
    destruct (proxies st' !! b) as [px'|], (proxies st !! b) as [px|];
      simpl in Preg; try discriminate; [|reflexivity].
    injection Preg as ->. reflexivity. }
  split; [| split; [| split; [| split]]].
  - intros p c. rewrite Hsub, Ht.
    rewrite !subscribers_member.
    assert (Hm : c ∈ match regs st1 !! reg pt with
                     | Some rg => members p rg
                     | None => []
                     end <-> member c (reg pt) p (regs st1)).
    { unfold member. destruct (regs st1 !! reg pt) as [rg|].
      - split; [eauto|]. now intros (rg' & [= <-] & H0).
      - split; [intros H0; inversion H0 | now intros (rg' & [=] & _)]. }
    rewrite Hm, M, Hpairs. split.
    + intros [H0 | (_ & Hc & _)].
      * left. eauto.
      * right. exists ps. split; [exact Hs|]. exists rs. auto.
    + intros [(px & Hpx & H0) | (px & Hpx & rg & Hrg & Hc)].
      * rewrite Ht in Hpx. injection Hpx as <-. now left.
      * rewrite Hs in Hpx. injection Hpx as <-. rewrite Hrs in Hrg. injection Hrg as <-.
        right. auto.
  - intros b pb p Hb Hne. rewrite Hsub, Hb, (O _ Hne). unfold subscribers.
    now rewrite Hb.
  - rewrite E. destruct (_p ps) as [q|].
    + unfold set_parent. simpl. rewrite lookup_alter_eq, P, Ht. reflexivity.
    + rewrite P, Ht. reflexivity.
  - intros b Hne. rewrite E. destruct (_p ps) as [q|]; [|now rewrite P].
    unfold set_parent. simpl. now rewrite lookup_alter_ne, P.
  - rewrite E. destruct (_p ps) as [q|]; [|exact S].
    eapply same_sched_trans; [exact S | apply same_sched_set_parent].
Qed.

(** The second reactive object of the conditional example merged into the
    nested one it is about to replace: the watcher of the nested [x] now
    also watches the [x] of the other object. *)
Lemma reactiveMerge_subscribers_witness :
  subscribers 2 "x" flag_watched = [CbQueued 6]
  /\ subscribers 5 "x" flag_watched = []
  /\ (forall c, c ∈ subscribers 5 "x" (reactiveMerge 5 2 flag_watched) <-> c = CbQueued 6)
  /\ _p <$> proxies (reactiveMerge 5 2 flag_watched) !! 5 = Some (Some ("a", 3)).
Proof.
  split; [vm_compute; reflexivity|]. split; [vm_compute; reflexivity|].
  edestruct (reactiveMerge_subscribers 5 2 flag_watched) as (H1 & _ & H3 & _);
    [ vm_compute; reflexivity | vm_compute; reflexivity | vm_compute; reflexivity
    | vm_compute; eauto | vm_compute; repeat constructor; set_solver | ].
  split; [| exact H3].
  intros c. rewrite H1.
  replace (subscribers 5 "x" flag_watched) with (@nil callback) by (vm_compute; reflexivity).
  replace (subscribers 2 "x" flag_watched) with [CbQueued 6] by (vm_compute; reflexivity).
  rewrite elem_of_nil, list_elem_of_singleton. tauto.
Defined.

End MergeFacts.

Module FlushOrder.
Import Reactive OrderedFacts ReactiveFrames ReactiveWatch ReactiveBatch.







End FlushOrder.

(** * More on partials: text updates, keyed chunks, placeholders *)

Module TextUpdate.
Import Partial PartialFacts ReconcileFacts.






End TextUpdate.

Module KeyedAdd.
Import Partial PartialFacts ReconcileFacts OrderedFacts.





End KeyedAdd.

Module Rendering.
Import Partial PartialFacts ReconcileFacts OrderedFacts.

Lemma adds_ignored vs : forall pw,
  Forall (fun v => add_ignores v = true) vs ->
  fold_left (fun acc v => acc ≫= add v) vs (Some pw) = Some pw.
Proof.
  induction vs as [| v vs IH]; intros pw H; [reflexivity|].
  apply Forall_cons in H as [Hv Hvs]. simpl.
  destruct pw as [p w0]. unfold add at 2. rewrite Hv. now apply IH.
Qed.

(** A value that renders nothing still leaves a node.  [setNode] with
    [null], [undefined], [false], the empty string, or an array of such
    values (the empty array included) makes a partial without chunks;
    rendering it adds the placeholder chunk and returns a fragment of one
    empty comment, tagged with the partial's group and owned by that
    chunk -- the anchor later updates are placed against. *)
Theorem nothing_renders_a_placeholder (createNodes : string -> list parsed)
  (values : list tplval) (g : nat) (w0 : world) :
  Forall (fun v => add_ignores v = true) values ->
  createNodes "<!---->" = [PNode KComment EmptyString] ->
  exists pw p' w1,
    setNode_create values g w0 = Some pw
    /\ render createNodes pw = Some (RFrag [S (S (fresh w0))], p', w1)
    /\ nodes w1 !! S (S (fresh w0))
       = Some {| kind := KComment; nodeValue := EmptyString; tags := [g] |}
    /\ previousChunks p' = [S (fresh w0)]
    /\ (fun ck => get_dom ck w1) <$> chunk_store w1 !! S (fresh w0)
       = Some [S (S (fresh w0))]
    /\ children w1 = children w0.
Proof.
  intros Hign Hparse. exists (createPartial g, w0).
  unfold setNode_create. rewrite (adds_ignored _ _ Hign).
  unfold render. cbn [fst snd chunks createPartial length Nat.eqb].
  unfold addPlaceholderChunk. cbn [chunks createPartial app]. 
  cbn [chunk_store with_fresh with_chunk_store with_dom_store].
  rewrite lookup_insert_eq. cbn [tpl isTpl p_html group].
  rewrite Hparse. cbn [assignDomChunks lookup list_lookup].
  cbn [chunk_store with_fresh with_chunk_store with_dom_store].
  rewrite lookup_insert_eq. unfold create_node.
  cbn [fresh with_fresh with_chunk_store with_dom_store with_nodes dom app group createPartial].
  eexists _, _. split; [reflexivity|]. split; [reflexivity|].
  cbn [nodes with_fresh with_chunk_store with_dom_store with_nodes reset previousChunks
         chunks chunk_store children].
  rewrite !lookup_insert_eq. split; [reflexivity|]. split; [reflexivity|].
  split; [|reflexivity].
  unfold get_dom. cbn. rewrite lookup_alter_eq, lookup_insert_eq. reflexivity.
Qed.

Lemma nothing_renders_a_placeholder_witness :
  exists pw p' w1,
    setNode_create [TVal PNull; TVal (PBool false); TVal (PStr EmptyString)] 7 world0 = Some pw
    /\ render toy_createNodes pw = Some (RFrag [102], p', w1)
    /\ nodes w1 !! 102 = Some {| kind := KComment; nodeValue := EmptyString; tags := [7] |}.
Proof.
  destruct (nothing_renders_a_placeholder toy_createNodes
              [TVal PNull; TVal (PBool false); TVal (PStr EmptyString)] 7 world0)
    as (pw & p' & w1 & H1 & H2 & H3 & _).
  - repeat constructor.
  - vm_compute. reflexivity.
  - exists pw, p', w1. split; [exact H1|]. split; [exact H2 | exact H3].
Defined.

(** [assignDomChunks]: walking what the parser produced for [n] chunks.
    If every node lies before the [n]-th bookend, each node becomes a new
    node of its kind and value carrying the partial's group, the bookends
    are dropped, and the fragment is these nodes in order; existing nodes,
    the children of the parent and the chunks themselves are untouched.
    If a node lies beyond the last chunk, reading [chunks[chunkIndex].dom]
    throws. *)
Theorem assignDomChunks_tags (g : nat) (cs : list nat) (ps : list parsed) :
  forall (i : nat) (acc : list nat) (w0 : world),
  Forall (fun c => is_Some (chunk_store w0 !! c)) cs ->
  if fits (length cs) ps i then
    exists w1,
      assignDomChunks g cs ps i acc w0
      = Some (acc ++ seq (fresh w0) (length (parsed_nodes ps)), w1)
      /\ fresh w1 = fresh w0 + length (parsed_nodes ps)
      /\ (forall j kv, parsed_nodes ps !! j = Some kv ->
            nodes w1 !! (fresh w0 + j)
            = Some {| kind := kv.1; nodeValue := kv.2; tags := [g] |})
      /\ (forall n, n < fresh w0 -> nodes w1 !! n = nodes w0 !! n)
      /\ children w1 = children w0
      /\ chunk_store w1 = chunk_store w0
  else assignDomChunks g cs ps i acc w0 = None.
Proof.
  induction ps as [| [| k v] ps IH]; intros i acc w0 Hcs.
  - simpl. exists w0. rewrite app_nil_r, Nat.add_0_r. repeat split. intros j kv H. inversion H.
  - simpl. apply IH. exact Hcs.
  - cbn [fits assignDomChunks].
    destruct (i <? length cs)%nat eqn:Ei; cbn [andb].
    + apply Nat.ltb_lt in Ei. destruct (lookup_lt_is_Some_2 cs i Ei) as [c Hc].
      rewrite Hc.
      assert (Hck : is_Some (chunk_store w0 !! c)).
      { rewrite Forall_forall in Hcs. apply Hcs. eapply list_elem_of_lookup_2. exact Hc. }
      destruct Hck as [ck Hck]. rewrite Hck. unfold create_node. cbv beta iota zeta.
      set (wa := with_dom_store (alter (fun ns => ns ++ [fresh w0]) (dom ck))
                   (with_fresh (S (fresh w0))
                      (with_nodes (insert (fresh w0)
                                     {| kind := k; nodeValue := v; tags := [g] |}) w0))).
      specialize (IH i (acc ++ [fresh w0]) wa Hcs).
      destruct (fits (length cs) ps i); [|exact IH].
      destruct IH as (w1 & E & F & N & O & C & St).
      exists w1. change (fresh wa) with (S (fresh w0)) in *.
      split; [rewrite E, <- app_assoc; reflexivity|].
      change (parsed_nodes (PNode k v :: ps)) with ((k, v) :: parsed_nodes ps).
      cbn [length]. split; [rewrite F; lia|]. split.
      * intros [| j] kv Hj.
        -- injection Hj as <-. rewrite Nat.add_0_r, O by lia.
           unfold wa. cbn. now rewrite lookup_insert_eq.
        -- replace (fresh w0 + S j) with (S (fresh w0) + j) by lia. apply N. exact Hj.
      * split; [|split; [exact C | exact St]].
        intros n Hn. rewrite O by lia. unfold wa. cbn. apply lookup_insert_ne. lia.
    + apply Nat.ltb_ge in Ei. rewrite (lookup_ge_None_2 cs i Ei). reflexivity.
Qed.

(** One template chunk: its element is created as node [102] with the
    group; a second element after the bookend has no chunk to go to. *)
Lemma assignDomChunks_tags_witness :
  (exists w1,
     assignDomChunks 7 [101] [PNode KElement "<a></a>"; PBookend] 0 []
       (default world0 (snd <$> one_added)) = Some ([102], w1)
     /\ nodes w1 !! 102 = Some {| kind := KElement; nodeValue := "<a></a>"; tags := [7] |})
  /\ assignDomChunks 7 [101] [PNode KElement "<a></a>"; PBookend; PNode KElement "<b></b>"]
       0 [] (default world0 (snd <$> one_added)) = None.
Proof.
  split.
  - pose proof (assignDomChunks_tags 7 [101] [PNode KElement "<a></a>"; PBookend] 0 []
                  (default world0 (snd <$> one_added))) as H.
    destruct H as (w1 & H1 & _ & H3 & _).
    + repeat constructor. vm_compute. eauto.
    + exists w1. split; [exact H1|]. apply (H3 0 (KElement, "<a></a>")). reflexivity.
  - apply (assignDomChunks_tags 7 [101]
             [PNode KElement "<a></a>"; PBookend; PNode KElement "<b></b>"] 0 []
             (default world0 (snd <$> one_added))).
    repeat constructor. vm_compute. eauto.
Defined.

End Rendering.
(** * Updates that render new nodes *)

Module Rebuild.
Import Template Partial PartialFacts ReconcileFacts OrderedFacts.

Lemma fits_past n ps : forall i,
  n <= i -> fits n ps i = true -> parsed_nodes ps = [].
Proof.
  induction ps as [| [| k v] ps IH]; intros i Hi Hfit.
  - reflexivity.
  - simpl in Hfit. apply (IH (S i)); [lia | exact Hfit].
  - simpl in Hfit. apply andb_true_iff in Hfit as [Hlt _].
    apply Nat.ltb_lt in Hlt. lia.
Qed.

Lemma assignDomChunks_past g cs ps : forall i acc w0,
  length cs <= i -> fits (length cs) ps i = true ->
  assignDomChunks g cs ps i acc w0 = Some (acc, w0).
Proof.
  induction ps as [| [| k v] ps IH]; intros i acc w0 Hi Hfit.
  - reflexivity.
  - simpl. apply IH; [lia | exact Hfit].
  - simpl in Hfit. apply andb_true_iff in Hfit as [Hlt _].
    apply Nat.ltb_lt in Hlt. lia.
Qed.

(** Walking the parsed nodes of a partial with one chunk: every node is
    created with the group and pushed onto that chunk's node array. *)
Lemma assignDomChunks_one g c ck ps : forall acc w0,
  chunk_store w0 !! c = Some ck ->
  fits 1 ps 0 = true ->
  exists w1,
    assignDomChunks g [c] ps 0 acc w0
    = Some (acc ++ seq (fresh w0) (length (parsed_nodes ps)), w1)
    /\ fresh w1 = fresh w0 + length (parsed_nodes ps)
    /\ (forall j kv, parsed_nodes ps !! j = Some kv ->
          nodes w1 !! (fresh w0 + j)
          = Some {| kind := kv.1; nodeValue := kv.2; tags := [g] |})
    /\ (forall n, n < fresh w0 -> nodes w1 !! n = nodes w0 !! n)
    /\ children w1 = children w0
    /\ chunk_store w1 = chunk_store w0
    /\ dom_store w1 !! dom ck
       = (fun ns => ns ++ seq (fresh w0) (length (parsed_nodes ps)))
           <$> dom_store w0 !! dom ck
    /\ (forall a, a <> dom ck -> dom_store w1 !! a = dom_store w0 !! a)
    /\ descs w1 = descs w0 /\ trace w1 = trace w0.
Proof.
  induction ps as [| [| k v] ps IH]; intros acc w0 Hc Hfit.
  - exists w0. simpl. rewrite app_nil_r, Nat.add_0_r.
    split; [reflexivity|]. split; [reflexivity|]. split; [intros j kv H; inversion H|].
    split; [auto|]. split; [reflexivity|]. split; [reflexivity|]. split.
    + destruct (dom_store w0 !! dom ck); simpl; [now rewrite app_nil_r | reflexivity].
    + auto.
  - exists w0. cbn [assignDomChunks fits] in *.
    change (parsed_nodes (PBookend :: ps)) with (parsed_nodes ps).
    rewrite (fits_past 1 ps 1 (le_n 1) Hfit).
    rewrite (assignDomChunks_past g [c] ps 1 acc w0 (le_n 1) Hfit).
    simpl. rewrite app_nil_r, Nat.add_0_r.
    split; [reflexivity|]. split; [reflexivity|]. split; [intros j kv H; inversion H|].
    split; [auto|]. split; [reflexivity|]. split; [reflexivity|]. split.
    + destruct (dom_store w0 !! dom ck); simpl; [now rewrite app_nil_r | reflexivity].
    + auto.
  - cbn [fits] in Hfit. apply andb_true_iff in Hfit as [_ Hfit].
    cbn [assignDomChunks lookup list_lookup]. rewrite Hc.
    unfold create_node. cbv beta iota zeta.
    set (wa := with_dom_store (alter (fun ns => ns ++ [fresh w0]) (dom ck))
                 (with_fresh (S (fresh w0))
                    (with_nodes (insert (fresh w0)
                                   {| kind := k; nodeValue := v; tags := [g] |}) w0))).
    destruct (IH (acc ++ [fresh w0]) wa Hc Hfit)
      as (w1 & E & F & N & O & C & St & D1 & D2 & Ds & Tr).
    exists w1. change (fresh wa) with (S (fresh w0)) in *.
    change (parsed_nodes (PNode k v :: ps)) with ((k, v) :: parsed_nodes ps).
    cbn [length seq].
    split; [rewrite E, <- app_assoc; reflexivity|].
    split; [rewrite F; lia|]. split.
    { intros [| j] kv Hj.
      - injection Hj as <-. rewrite Nat.add_0_r, O by lia.
        unfold wa. cbn. now rewrite lookup_insert_eq.
      - replace (fresh w0 + S j) with (S (fresh w0) + j) by lia. apply N. exact Hj. }
    split.
    { intros n Hn. rewrite O by lia. unfold wa. cbn. apply lookup_insert_ne. lia. }
    split; [exact C|]. split; [exact St|]. split.
    { rewrite D1. unfold wa. cbn. rewrite lookup_alter_eq.
      destruct (dom_store w0 !! dom ck) as [ns|]; simpl; [|reflexivity].
      now rewrite <- app_assoc. }
    split.
    { intros a Ha. rewrite D2 by exact Ha. unfold wa. cbn. now rewrite lookup_alter_ne. }
    split; [exact Ds | exact Tr].
Qed.

Lemma viable_previous_fresh o news pre rest : forall seen,
  o ∉ pre -> (forall x, x ∈ pre -> x ∉ news) ->
  viable_previous o news (pre ++ o :: rest) seen
  = match last pre with Some x => Some x | None => seen end.
Proof.
  induction pre as [| x pre IH]; intros seen Ho Hnews.
  - simpl. now rewrite Nat.eqb_refl.
  - cbn [app viable_previous].
    destruct (x =? o)%nat eqn:E.
    { apply Nat.eqb_eq in E. subst. exfalso. apply Ho. now left. }
    unfold in_list. rewrite bool_decide_false by (apply Hnews; now left).
    rewrite IH.
    + destruct pre as [| y pre]; [reflexivity|].
      change (last (x :: y :: pre)) with (last (y :: pre)).
      destruct (last (y :: pre)) eqn:El; [reflexivity|].
      apply last_None in El. discriminate.
    + intros H. apply Ho. now right.
    + intros y Hy. apply Hnews. now right.
Qed.

Lemma insert_after_last body x news rest :
  x ∉ body ->
  insert_after_ref (Some x) news (body ++ x :: rest) = body ++ x :: news ++ rest.
Proof.
  induction body as [| y body IH]; intros Hx.
  - simpl. now rewrite Nat.eqb_refl.
  - cbn [app insert_after_ref]. destruct (y =? x)%nat eqn:E.
    { apply Nat.eqb_eq in E. subst. exfalso. apply Hx. now left. }
    f_equal. apply IH. intros H. apply Hx. now right.
Qed.

(** [o.before(...news)] for new nodes not yet in the tree. *)
Lemma before_fresh o news pre rest :
  NoDup (pre ++ o :: rest) ->
  (forall x, x ∈ pre ++ o :: rest -> x ∉ news) ->
  before o news (pre ++ o :: rest) = pre ++ news ++ o :: rest.
Proof.
  intros Hnd Hnews. unfold before, in_list.
  rewrite bool_decide_true by (apply elem_of_app; right; now left).
  rewrite without_keeps by (apply Forall_forall; exact Hnews).
  assert (Ho : o ∉ pre).
  { apply NoDup_app in Hnd as (_ & Hd & _). intros H. apply (Hd o H). now left. }
  rewrite viable_previous_fresh; [|exact Ho|].
  2:{ intros x Hx. apply Hnews. apply elem_of_app. now left. }
  destruct (last pre) as [x|] eqn:El.
  - apply last_Some in El as [body ->].
    rewrite <- app_assoc. cbn [app].
    rewrite insert_after_last.
    + now rewrite <- app_assoc.
    + rewrite <- app_assoc in Hnd. cbn [app] in Hnd.
      apply NoDup_app in Hnd as (_ & Hd & _). intros H. apply (Hd x H). now left.
  - apply last_None in El. subst pre. reflexivity.
Qed.

Lemma trailing_within g mid post w0 :
  match post with [] => True | n :: _ => has_group g n w0 = false end ->
  forall x, x ∈ trailing g (mid ++ post) w0 -> x ∈ mid.
Proof.
  intros Hpost. induction mid as [| n mid IH]; intros x; simpl.
  - destruct post as [| n post]; simpl; [inversion 1|]. rewrite Hpost. inversion 1.
  - destruct (has_group g n w0); [|inversion 1].
    intros H. apply elem_of_cons in H as [-> | H]; [now left | right; auto].
Qed.

Lemma without_ext ns ms kids :
  (forall x, x ∈ kids -> (x ∈ ns <-> x ∈ ms)) -> without ns kids = without ms kids.
Proof.
  unfold without. induction kids as [| k kids IH]; intros H; [reflexivity|].
  assert (IH' : filter (fun k => k ∉ ns) kids = filter (fun k => k ∉ ms) kids).
  { apply IH. intros x Hx. apply H. now right. }
  destruct (decide (k ∈ ns)) as [Hin | Hout].
  - rewrite !filter_cons_False; [exact IH' | |]; intros Hn; apply Hn; [|exact Hin].
    apply H; [now left | exact Hin].
  - rewrite !filter_cons_True; [now f_equal | | exact Hout].
    intros Hm. apply Hout. apply H; [now left | exact Hm].
Qed.

(** Replacing the one template of a partial by a template with other
    markup: [_up] renders the new template, puts its nodes where the old
    ones were and removes the old ones; the rest of the parent's children
    stay in order.  The new nodes carry the partial's group and are owned
    by the new chunk, which becomes the previous chunk of the next
    update. *)
Theorem replaced_template_swaps_nodes (createNodes : string -> list parsed)
  (p : partial) (w0 : world) (c p0 : nat) (ck pk : chunk)
  (m : string) (exps : list nat) (k : Z) (ps : list parsed) (pre olds post : list nat) :
  chunks p = [c] ->
  previousChunks p = [p0] ->
  toRemove p = [] ->
  chunk_store w0 !! c = Some ck ->
  chunk_store w0 !! p0 = Some pk ->
  tpl ck = TTpl m exps k ->
  get_dom ck w0 = [] ->
  html ck <> html pk ->
  key pk = 0%Z ->
  get_dom pk w0 = olds ->
  olds <> [] ->
  children w0 = pre ++ olds ++ post ->
  NoDup (children w0) ->
  (forall n, n ∈ children w0 -> n < fresh w0) ->
  c < fresh w0 ->
  match post with [] => True | n :: _ => has_group (group p) n w0 = false end ->
  createNodes (m +:+ bookendComment) = ps ->
  fits 1 ps 0 = true ->
  let news := seq (fresh w0 + 2) (length (parsed_nodes ps)) in
  exists p' w1,
    _up createNodes (p, w0) = Some (p', w1)
    /\ children w1 = pre ++ news ++ post
    /\ (forall j kv, parsed_nodes ps !! j = Some kv ->
          nodes w1 !! (fresh w0 + 2 + j)
          = Some {| kind := kv.1; nodeValue := kv.2; tags := [group p] |})
    /\ previousChunks p' = [c]
    /\ (fun x => get_dom x w1) <$> chunk_store w1 !! c = Some news
    /\ toRemove p' = [].
Proof.
  intros Hchunks Hprev Hrem Hc Hp Htpl Hdom Hhtml Hkey Holds Hne Hkids Hnd Hlow Hcl
    Hpost Hparse Hfit news.
  unfold _up, up_init. rewrite Hprev, Hp, Hchunks. simpl length. cbv beta iota.
  change ((1 =? 0)%nat) with false. cbv beta iota.
  set (u0 := {| main := p; subPartial := createPartial (group p); startChunking := 0;
                lastNode := head (get_dom pk w0); wd := w0 |}).
  change (chunks (main u0)) with (chunks p). rewrite Hchunks. cbn [up_loop].
  (* the loop body: rebuild *)
  unfold up_step. cbn [wd main u0 subPartial lastNode startChunking].
  rewrite Hc, Hprev. cbn [lookup list_lookup mbind option_bind]. rewrite Hp.
  unfold select_rule. rewrite Hdom. cbn [length Nat.eqb negb andb].
  rewrite andb_false_r. cbv beta iota.
  assert (Eh : String.eqb (html ck) (html pk) = false) by (now apply String.eqb_neq).
  rewrite Eh, Hkey. cbn [andb negb Z.eqb]. cbv beta iota.
  rewrite Htpl. unfold add. cbn [add_ignores createPartial p_html keyedChunks].
  replace (if (k =? 0)%Z then None else alist_get k (@nil (Z * nat))) with (@None nat)
    by (destruct (k =? 0)%Z; reflexivity).
  cbn [createPartial p_expressions chunks previousChunks toRemove l group app Nat.eqb].
  set (nck := {| html := m; exp := exps; dom := fresh w0; tpl := TTpl m exps k; key := k |}).
  set (wa := with_fresh (S (S (fresh w0)))
               (with_chunk_store (insert (S (fresh w0)) nck)
                  (with_dom_store (insert (fresh w0) []) w0))).
  set (sub := {| p_html := EmptyString +:+ m +:+ bookendComment; p_expressions := exps;
                 chunks := [S (fresh w0)]; previousChunks := [];
                 keyedChunks := if (k =? 0)%Z then [] else alist_set k (S (fresh w0)) [];
                 toRemove := []; l := 1; group := group p |}).
  (* closing the sub-partial *)
  unfold up_finish, closeSubPartial. cbn [subPartial l sub Nat.eqb wd lastNode startChunking].
  assert (Hnck : chunk_store wa !! S (fresh w0) = Some nck).
  { unfold wa. cbn. apply lookup_insert_eq. }
  unfold render. cbn [fst snd chunks sub length Nat.eqb]. rewrite Hnck.
  cbn [tpl nck isTpl].
  change (p_html sub) with (m +:+ bookendComment). change (group sub) with (group p).
  rewrite Hparse.
  destruct (assignDomChunks_one (group p) (S (fresh w0)) nck ps [] wa Hnck Hfit)
    as (wb & E & F & N & O & C & St & D1 & D2 & Ds & Tr).
  rewrite E. change (fresh wa) with (S (S (fresh w0))) in *.
  replace (S (S (fresh w0))) with (fresh w0 + 2) in * by lia. fold news in E, D1 |- *.
  cbn [app lastChild rendered_nodes main reset previousChunks chunks].
  rewrite Holds.
  destruct olds as [| o0 olds']; [contradiction|]. cbn [head]. cbn [app] in Hkids.
  change (chunks (push_toRemove (o0 :: olds') p)) with (chunks p). rewrite Hchunks.
  change (chunks sub) with [S (fresh w0)].
  set (wc := with_children (before o0 news) wb).
  assert (Hwc : chunk_store wc !! S (fresh w0) = Some nck).
  { unfold wc. cbn. rewrite St. exact Hnck. }
  cbn [transferChunks lookup list_lookup]. rewrite Hwc.
  set (wd4 := with_chunk_store
                (alter (fun bk => {| html := html bk; exp := exp bk; dom := dom nck;
                                     tpl := tpl bk; key := key bk |}) c) wc).
  cbn [lastNode main wd push_toRemove toRemove group].
  rewrite Hrem. cbn [app].
  change (children wd4) with (before o0 news (children wb)).
  rewrite C. change (children wa) with (children w0). rewrite Hkids.
  assert (Hfresh : forall x, x ∈ pre ++ o0 :: olds' ++ post -> x ∉ news).
  { intros x Hx Hin. rewrite <- Hkids in Hx. apply Hlow in Hx.
    unfold news in Hin. apply elem_of_seq in Hin. lia. }
  cbn [app]. rewrite (before_fresh o0 news pre (olds' ++ post))
    by (first [now rewrite <- Hkids | exact Hfresh]).
  set (extra := match last news with
                | Some ln =>
                    trailing (group p)
                      (siblings_after ln (pre ++ news ++ o0 :: olds' ++ post)) wd4
                | None => []
                end).
  assert (Hnodes : forall n, n < fresh w0 -> nodes wd4 !! n = nodes w0 !! n).
  { intros n Hn. change (nodes wd4) with (nodes wb). rewrite O by lia. reflexivity. }
  assert (Hndn : NoDup ((pre ++ news) ++ (o0 :: olds') ++ post)).
  { rewrite <- app_assoc. rewrite Hkids in Hnd.
    apply NoDup_app in Hnd as (N1 & N2 & N3).
    apply NoDup_app. split; [exact N1|]. split.
    - intros x Hx Hin. apply elem_of_app in Hin as [Hin | Hin].
      + apply (Hfresh x); [apply elem_of_app; now left | exact Hin].
      + exact (N2 x Hx Hin).
    - apply NoDup_app. split; [apply NoDup_seq|]. split; [|exact N3].
      intros x Hx Hin. apply (Hfresh x); [apply elem_of_app; now right | exact Hx]. }
  assert (Hextra : forall x, x ∈ extra -> x ∈ o0 :: olds').
  { unfold extra. destruct (last news) as [ln|] eqn:El; [|inversion 1].
    apply last_Some in El as [body El].
    assert (Hafter : siblings_after ln (pre ++ news ++ o0 :: olds' ++ post)
                     = (o0 :: olds') ++ post).
    { rewrite El. replace (pre ++ (body ++ [ln]) ++ o0 :: olds' ++ post)
        with ((pre ++ body) ++ ln :: (o0 :: olds') ++ post)
        by (now rewrite <- !app_assoc).
      apply siblings_after_found.
      rewrite El in Hndn.
      replace ((pre ++ body ++ [ln]) ++ (o0 :: olds') ++ post)
        with ((pre ++ body) ++ ln :: (o0 :: olds') ++ post) in Hndn
        by (now rewrite <- !app_assoc).
      apply NoDup_app in Hndn as (_ & Hd & _). intros Hin. apply (Hd ln Hin). now left. }
    rewrite Hafter. apply trailing_within.
    destruct post as [| n post]; [exact Logic.I|].
    unfold has_group. rewrite Hnodes; [exact Hpost|].
    apply Hlow. rewrite Hkids. apply elem_of_app. right. right.
    apply elem_of_app. right. now left. }
  eexists _, _. split; [reflexivity|].
  cbn [removeNodes children with_children reset previousChunks chunks push_toRemove toRemove].
  split.
  { change (children wd4) with (before o0 news (children wb)).
    rewrite C. change (children wa) with (children w0). rewrite Hkids.
    rewrite (before_fresh o0 news pre (olds' ++ post))
      by (first [now rewrite <- Hkids | exact Hfresh]).
    rewrite (without_ext _ (o0 :: olds')).
    - replace (pre ++ news ++ o0 :: olds' ++ post)
        with ((pre ++ news) ++ (o0 :: olds') ++ post) by (now rewrite <- !app_assoc).
      rewrite (without_middle _ _ _ Hndn). now rewrite <- app_assoc.
    - intros x _. split; intros H.
      + apply elem_of_cons in H as [-> | H]; [now left|].
        apply elem_of_app in H as [H | H]; [now right | now apply Hextra].
      + apply elem_of_cons in H as [-> | H]; [now left|].
        right. apply elem_of_app. now left. }
  split.
  { intros j kv Hj. change (nodes wd4) with (nodes wb). now apply N. }
  split; [exact Hchunks|]. split; [|reflexivity].
  assert (Hcd : chunk_store wd4 !! c
                = Some {| html := html ck; exp := exp ck; dom := fresh w0;
                          tpl := tpl ck; key := key ck |}).
  { unfold wd4. cbn [chunk_store with_chunk_store]. rewrite lookup_alter_eq.
    change (chunk_store wc) with (chunk_store wb). rewrite St.
    unfold wa. cbn [chunk_store with_fresh with_chunk_store with_dom_store].
    rewrite lookup_insert_ne by lia. now rewrite Hc. }
  assert (Hdd : dom_store wd4 !! fresh w0 = Some news).
  { change (dom_store wd4) with (dom_store wb).
    change (dom nck) with (fresh w0) in D1. rewrite D1.
    unfold wa. cbn [dom_store with_fresh with_chunk_store with_dom_store].
    now rewrite lookup_insert_eq. }
  cbn [removeNodes with_children chunk_store]. rewrite Hcd.
  cbn [fmap option_fmap option_map]. unfold get_dom.
  cbn [dom removeNodes dom_store with_children]. now rewrite Hdd.
Qed.

(** [<a></a>] rendered as node [102], then updated to [<b></b>]: node
    [107] takes its place. *)
Lemma replaced_template_swaps_nodes_witness :
  exists p w0 p' w1,
    one_replaced = Some (p, w0)
    /\ children w0 = [102]
    /\ _up toy_createNodes (p, w0) = Some (p', w1)
    /\ children w1 = [107]
    /\ nodes w1 !! 107 = Some {| kind := KElement; nodeValue := "<b></b>"; tags := [7] |}.
Proof.
  eexists _, _.
  destruct (replaced_template_swaps_nodes toy_createNodes
              {| p_html := "<b></b><!--❍⇚-->"; p_expressions := []; chunks := [104];
                 previousChunks := [101]; keyedChunks := []; toRemove := []; l := 1;
                 group := 7 |}
              (default world0 (snd <$> one_replaced))
              104 101
              {| html := "<b></b>"; exp := []; dom := 103; tpl := tplB; key := 0 |}
              {| html := "<a></a>"; exp := []; dom := 100; tpl := tplA; key := 0 |}
              "<b></b>" [] 0 [PNode KElement "<b></b>"; PBookend] [] [102] [])
    as (p' & w1 & H1 & H2 & H3 & _);
    [ solve [ vm_compute; reflexivity
            | vm_compute; lia
            | vm_compute; discriminate
            | exact I
            | vm_compute; repeat constructor; set_solver
            | vm_compute; intros n Hn; apply list_elem_of_singleton in Hn; lia ] .. | ].
  exists p', w1. split; [vm_compute; reflexivity|]. split; [reflexivity|].
  split; [exact H1|]. split; [rewrite H2; reflexivity|].
  apply (H3 0 (KElement, "<b></b>")). reflexivity.
Defined.







End Rebuild.

(** * Keyed items that change places *)

Module KeyedReorder.
Import Template Partial PartialFacts ReconcileFacts OrderedFacts Rebuild.





End KeyedReorder.

(** * Wrapping an object literal *)

Module ReactiveWrap.
Import Reactive OrderedFacts ReactiveFacts ReactiveFrames.

Lemma points_to_spec o b : points_to o b = true <-> o = Some (VRef b).
Proof.
  destruct o as [[p | f | id arr props | b0]|]; simpl; try (split; [discriminate | congruence]).
  rewrite Nat.eqb_eq. split; [now intros -> | now intros [= ->]].
Qed.

Lemma literal_props id arr props :
  literal (VObj id arr props) = true ->
  isR (VObj id arr props) = false
  /\ NoDup (map fst props)
  /\ (forall k, k ∈ map fst props -> depProps_has k = false)
  /\ Forall (fun kv : string * jsval => literal kv.2 = true) props.
Proof.
  cbn [literal]. rewrite !andb_true_iff. intros [[[[_ H1] H2] H3] H4].
  split; [now apply negb_true_iff|]. split; [now apply bool_decide_eq_true in H2|].
  split.
  - intros k Hk. rewrite forallb_forall in H3. apply negb_true_iff, H3.
    now apply list_elem_of_In.
  - clear H1 H2 H3. induction props as [| [k x] rest IH]; [constructor|].
    apply andb_true_iff in H4 as [Hx Hrest]. constructor; [exact Hx | now apply IH].
Qed.

Lemma adopt_children_cons a c0 cs st :
  adopt_children a (c0 :: cs) st
  = adopt_children a cs
      (match get_trap a c0 st with
       | Some (VRef b, st') => set_parent b (Some (c0, a)) st'
       | Some (_, st') => st'
       | None => st
       end).
Proof. reflexivity. Qed.

Lemma adopt_step a px c0 st :
  proxies st !! a = Some px ->
  depProps_has c0 = false ->
  match get_trap a c0 st with
  | Some (VRef b, st') => set_parent b (Some (c0, a)) st'
  | Some (_, st') => st'
  | None => st
  end
  = match alist_get c0 (proxySource px) with
    | Some (VRef b) => set_parent b (Some (c0, a)) (addDep a c0 st)
    | _ => addDep a c0 st
    end.
Proof.
  intros Ha Hd. unfold get_trap. rewrite Ha, Hd.
  destruct (alist_get c0 (proxySource px)) as [[p | f | id arr props | b]|]; reflexivity.
Qed.

(** [adopt_children]: each child that is a proxy gets its parent link. *)
Lemma adopt_children_spec a px children : forall st,
  proxies st !! a = Some px ->
  (forall c, c ∈ children -> depProps_has c = false) ->
  (forall c, c ∈ children -> alist_get c (proxySource px) <> Some (VRef a)) ->
  let st' := adopt_children a children st in
  next st' = next st
  /\ proxies st' !! a = Some px
  /\ regs st' = regs st
  /\ (forall b, proxies st !! b = None -> proxies st' !! b = None)
  /\ forall b pb,
       proxies st !! b = Some pb -> b <> a ->
       exists pb',
         proxies st' !! b = Some pb'
         /\ proxySource pb' = proxySource pb /\ isArray pb' = isArray pb /\ reg pb' = reg pb
         /\ ((forall c, c ∈ children -> alist_get c (proxySource px) <> Some (VRef b)) ->
             _p pb' = _p pb)
         /\ (forall c, c ∈ children -> alist_get c (proxySource px) = Some (VRef b) ->
             (forall c', c' ∈ children -> alist_get c' (proxySource px) = Some (VRef b) ->
                         c' = c) ->
             _p pb' = Some (c, a)).
Proof.
  induction children as [| c0 children IH]; intros st Ha Hdep Hself st'.
  - subst st'. simpl. split; [reflexivity|]. split; [exact Ha|]. split; [reflexivity|].
    split; [auto|].
    intros b pb Hb _. exists pb. split; [exact Hb|]. do 3 (split; [reflexivity|]).
    split; [reflexivity|]. intros c Hc. inversion Hc.
  - subst st'. rewrite adopt_children_cons, (adopt_step a px c0 st Ha) by (apply Hdep; now left).
    set (st1 := match alist_get c0 (proxySource px) with
                | Some (VRef b) => set_parent b (Some (c0, a)) (addDep a c0 st)
                | _ => addDep a c0 st
                end).
    assert (N1 : next st1 = next st).
    { unfold st1. destruct (alist_get c0 (proxySource px)) as [[| | |b]|]; reflexivity. }
    assert (R1 : regs st1 = regs st).
    { unfold st1. destruct (alist_get c0 (proxySource px)) as [[| | |b]|]; reflexivity. }
    assert (P1 : forall b, proxies st1 !! b
                 = if points_to (alist_get c0 (proxySource px)) b
                   then with_parent (Some (c0, a)) <$> proxies st !! b
                   else proxies st !! b).
    { intros b. unfold st1.
      destruct (alist_get c0 (proxySource px)) as [[p | f | id arr props | b0]|] eqn:E;
        try reflexivity.
      unfold set_parent. simpl. destruct (b0 =? b)%nat eqn:Eb.
      - apply Nat.eqb_eq in Eb. subst b0. now rewrite lookup_alter_eq.
      - apply Nat.eqb_neq in Eb. now rewrite lookup_alter_ne. }
    assert (Ha1 : proxies st1 !! a = Some px).
    { rewrite P1. destruct (points_to _ a) eqn:E; [|exact Ha].
      apply points_to_spec in E. exfalso. apply (Hself c0); [now left | exact E]. }
    destruct (IH st1 Ha1) as (N & A & R & Z & B).
    { intros c Hc. apply Hdep. now right. }
    { intros c Hc. apply Hself. now right. }
    split; [congruence|]. split; [exact A|]. split; [congruence|].
    split.
    { intros b Hb. apply Z. rewrite P1, Hb. now destruct (points_to _ b). }
    intros b pb Hb Hba.
    destruct (points_to (alist_get c0 (proxySource px)) b) eqn:E0.
    + assert (Hb1 : proxies st1 !! b = Some (with_parent (Some (c0, a)) pb)).
      { rewrite P1, E0. now rewrite Hb. }
      apply points_to_spec in E0.
      destruct (B b _ Hb1 Hba) as (pb' & h1 & h2 & h3 & h4 & h5 & h6).
      exists pb'. split; [exact h1|]. split; [exact h2|]. split; [exact h3|].
      split; [exact h4|]. split.
      * intros Hnone. exfalso. apply (Hnone c0); [now left | exact E0].
      * intros c Hc Hcb Huniq.
        destruct (decide (c ∈ children)) as [Hin|Hnin].
        -- apply h6; [exact Hin | exact Hcb |].
           intros c' Hc' Hc'b. apply Huniq; [now right | exact Hc'b].
        -- apply elem_of_cons in Hc as [-> | Hc]; [|contradiction].
           rewrite h5; [reflexivity|].
           intros c' Hc' Hc'b. apply Hnin.
           rewrite <- (Huniq c' (ltac:(now right)) Hc'b). exact Hc'.
    + assert (Hb1 : proxies st1 !! b = Some pb).
      { rewrite P1, E0. exact Hb. }
      assert (E0' : alist_get c0 (proxySource px) <> Some (VRef b)).
      { intros H. apply points_to_spec in H. congruence. }
      destruct (B b _ Hb1 Hba) as (pb' & h1 & h2 & h3 & h4 & h5 & h6).
      exists pb'. split; [exact h1|]. split; [exact h2|]. split; [exact h3|].
      split; [exact h4|]. split.
      * intros Hnone. apply h5. intros c Hc. apply Hnone. now right.
      * intros c Hc Hcb Huniq.
        apply elem_of_cons in Hc as [-> | Hc]; [contradiction|].
        apply h6; [exact Hc | exact Hcb |].
        intros c' Hc' Hc'b. apply Huniq; [now right | exact Hc'b].
Qed.

Lemma proxy_eta (p q : proxy) :
  proxySource p = proxySource q -> isArray p = isArray q -> reg p = reg q -> _p p = _p q ->
  p = q.
Proof. destruct p, q. simpl. now intros -> -> -> ->. Qed.

Lemma copy_properties_spec (n0 : nat) (todo : list (string * jsval)) :
  Forall (fun kv : string * jsval => r_ok kv.2) todo ->
  Forall (fun kv : string * jsval => literal kv.2 = true) todo ->
  forall done src children st,
    copy_inv n0 done src children st ->
    NoDup (map fst (done ++ todo)) ->
    let res := copy_properties todo (src, children, st) in
    copy_inv n0 (done ++ todo) res.1.1 res.1.2 res.2
    /\ next st <= next res.2
    /\ (forall a, a < next st -> proxies res.2 !! a = proxies st !! a)
    /\ (forall i, i < next st -> regs res.2 !! i = regs st !! i).
Proof.
  induction todo as [| [k v] todo IH]; intros Hok Hlit done src children st Hinv Hnd res.
  - subst res. simpl. rewrite app_nil_r. auto.
  - apply Forall_cons in Hok as [Hv Hok]. apply Forall_cons in Hlit as [Lv Hlit].
    simpl in Hv, Lv.
    assert (Hk : k ∉ map fst done).
    { rewrite map_app in Hnd. apply NoDup_app in Hnd as (_ & Hdisj & _).
      intros Hin. apply (Hdisj k Hin). simpl. left. }
    destruct Hinv as (I0 & I1 & I2 & I3 & I4 & I5).
    assert (Hkeys : map fst (alist_set k v src) = map fst (done ++ [(k, v)])
                    /\ forall x, map fst (alist_set k x src) = map fst (done ++ [(k, v)])).
    { assert (forall x, map fst (alist_set k x src) = map fst (done ++ [(k, v)])).
      { intros x. rewrite map_fst_alist_set, bool_decide_false by (now rewrite I1).
        now rewrite I1, map_app. }
      auto. }
    destruct Hkeys as [_ Hkeys].
    subst res. cbn [copy_properties].
    replace (done ++ (k, v) :: todo) with ((done ++ [(k, v)]) ++ todo) in *
      by (now rewrite <- app_assoc).
    destruct v as [p | f | id arr props | b0]; [| | | discriminate Lv].
    + (* a primitive *)
      assert (Hstep : copy_inv n0 (done ++ [(k, VPrim p)]) (alist_set k (VPrim p) src)
                        children st).
      { split; [exact I0|]. split; [apply Hkeys|]. split; [|split; [|split]].
        - intros k' vk' Hin. apply elem_of_app in Hin as [Hin | Hin].
          + assert (k <> k').
            { intros ->. apply Hk. apply list_elem_of_fmap. exists (k', vk'). auto. }
            specialize (I2 k' vk' Hin). destruct vk'; rewrite alist_get_set_ne; auto.
          + apply list_elem_of_singleton in Hin. injection Hin as -> ->.
            apply alist_get_set_eq.
        - intros k' b Hget. destruct (decide (k = k')) as [->|Hne].
          + rewrite alist_get_set_eq in Hget. discriminate.
          + rewrite alist_get_set_ne in Hget by exact Hne. eauto.
        - intros k1 k2 b H1 H2.
          destruct (decide (k = k1)) as [->|Hne1];
            [rewrite alist_get_set_eq in H1; discriminate|].
          destruct (decide (k = k2)) as [->|Hne2];
            [rewrite alist_get_set_eq in H2; discriminate|].
          rewrite alist_get_set_ne in H1, H2 by assumption. eauto.
        - intros c Hc. rewrite map_app. apply elem_of_app. left. auto. }
      destruct p; cbn [typeof_object is_null andb negb];
        apply (IH Hok Hlit _ _ _ _ Hstep Hnd).
    + (* a function *)
      assert (Hstep : copy_inv n0 (done ++ [(k, VFun f)]) (alist_set k (VFun f) src)
                        children st).
      { split; [exact I0|]. split; [apply Hkeys|]. split; [|split; [|split]].
        - intros k' vk' Hin. apply elem_of_app in Hin as [Hin | Hin].
          + assert (k <> k').
            { intros ->. apply Hk. apply list_elem_of_fmap. exists (k', vk'). auto. }
            specialize (I2 k' vk' Hin). destruct vk'; rewrite alist_get_set_ne; auto.
          + apply list_elem_of_singleton in Hin. injection Hin as -> ->.
            apply alist_get_set_eq.
        - intros k' b Hget. destruct (decide (k = k')) as [->|Hne].
          + rewrite alist_get_set_eq in Hget. discriminate.
          + rewrite alist_get_set_ne in Hget by exact Hne. eauto.
        - intros k1 k2 b H1 H2.
          destruct (decide (k = k1)) as [->|Hne1];
            [rewrite alist_get_set_eq in H1; discriminate|].
          destruct (decide (k = k2)) as [->|Hne2];
            [rewrite alist_get_set_eq in H2; discriminate|].
          rewrite alist_get_set_ne in H1, H2 by assumption. eauto.
        - intros c Hc. rewrite map_app. apply elem_of_app. left. auto. }
      cbn [typeof_object andb]. apply (IH Hok Hlit _ _ _ _ Hstep Hnd).
    + (* a nested object *)
      destruct (literal_props _ _ _ Lv) as (HnotR & _).
      cbn [typeof_object is_null andb negb]. rewrite HnotR. cbn [negb].
      destruct (Hv None st Lv) as (F1 & F2 & F3 & W).
      destruct (r (VObj id arr props) None st) as [x st1] eqn:Er.
      cbn [fst snd] in F1, F2, F3, W.
      destruct W as (b & pb & Hx & Hb & Hpb & Harr & Hkeysb & _).
      cbn [fst snd] in Hx, Hb, Hpb. subst x.
      assert (Hstep : copy_inv n0 (done ++ [(k, VObj id arr props)])
                        (alist_set k (VRef b) src) (children ++ [k]) st1).
      { split; [lia|]. split; [apply Hkeys|]. split; [|split; [|split]].
        - intros k' vk' Hin. apply elem_of_app in Hin as [Hin | Hin].
          + assert (k <> k').
            { intros ->. apply Hk. apply list_elem_of_fmap. exists (k', vk'). auto. }
            specialize (I2 k' vk' Hin). destruct vk' as [| | id' arr' props' |];
              try (rewrite alist_get_set_ne; auto; fail).
            destruct I2 as (b' & pb' & h1 & h2 & h3 & h4 & h5).
            exists b', pb'. rewrite alist_get_set_ne by assumption.
            split; [exact h1|]. split.
            * rewrite F2; [exact h2|]. apply (I3 _ _ h1).
            * split; [exact h3|]. split; [exact h4|]. apply elem_of_app. now left.
          + apply list_elem_of_singleton in Hin. injection Hin as -> ->.
            exists b, pb. rewrite alist_get_set_eq. split; [reflexivity|].
            split; [exact Hpb|]. split; [exact Harr|]. split; [exact Hkeysb|].
            apply elem_of_app. right. apply list_elem_of_singleton. reflexivity.
        - intros k' b' Hget. destruct (decide (k = k')) as [->|Hne].
          + rewrite alist_get_set_eq in Hget. injection Hget as <-. lia.
          + rewrite alist_get_set_ne in Hget by exact Hne.
            specialize (I3 _ _ Hget). lia.
        - intros k1 k2 b' H1 H2.
          destruct (decide (k = k1)) as [E1|Hne1]; destruct (decide (k = k2)) as [E2|Hne2].
          + congruence.
          + rewrite <- E1, alist_get_set_eq in H1. injection H1 as <-.
            rewrite alist_get_set_ne in H2 by exact Hne2. specialize (I3 _ _ H2). lia.
          + rewrite <- E2, alist_get_set_eq in H2. injection H2 as <-.
            rewrite alist_get_set_ne in H1 by exact Hne1. specialize (I3 _ _ H1). lia.
          + rewrite alist_get_set_ne in H1, H2 by assumption. eauto.
        - intros c Hc. rewrite map_app. apply elem_of_app.
          apply elem_of_app in Hc as [Hc | Hc]; [left; auto | right].
          apply list_elem_of_singleton in Hc. subst c. simpl. left. }
      destruct (IH Hok Hlit _ _ _ _ Hstep Hnd) as (J1 & J2 & J3 & J4).
      split; [exact J1|]. split; [lia|]. split.
      * intros a Ha. rewrite J3 by lia. now apply F2.
      * intros i Hi. rewrite J4 by lia. now apply F3.
Qed.

Lemma r_registry_spec rs st :
  next st <= next (r_registry rs st).2
  /\ proxies (r_registry rs st).2 = proxies st
  /\ (r_registry rs st).1 = match rs with Some (rid, _) => rid | None => next st end
  /\ (forall i, i < next st -> regs (r_registry rs st).2 !! i = regs st !! i).
Proof.
  unfold r_registry. destruct rs as [[rid p]|]; simpl; [auto|].
  split; [lia|]. split; [reflexivity|]. split; [reflexivity|].
  intros i Hi. apply lookup_insert_ne. lia.
Qed.

#[local] Arguments r_finish : simpl never.
#[local] Arguments r_registry : simpl never.

Lemma r_ok_all (v : jsval) : r_ok v.
Proof.
  induction v as [p | f | id arr props IH | a] using jsval_nested_ind;
    intros rs st Hlit.
  - destruct p; try (simpl; split; [lia | split; [reflexivity | split; [reflexivity | exact I]]]).
    (* null: a proxy over an empty object *)
    cbn [r isR typeof_object orb negb].
    destruct (r_registry_spec rs st) as (R1 & R2 & _ & R4).
    destruct (r_registry rs st) as [rid st1]. cbn [fst snd] in R1, R2, R4.
    unfold r_finish. cbn [adopt_children fold_left fst snd].
    split; [simpl; lia|]. split; [|split; [|exact I]].
    + intros a Ha. simpl. rewrite lookup_insert_ne by lia. now rewrite R2.
    + intros i Hi. simpl. now apply R4.
  - simpl. split; [lia | split; [reflexivity | split; [reflexivity | exact I]]].
  - destruct (literal_props _ _ _ Hlit) as (HnotR & Hnd & Hdep & Hlits).
    rewrite r_unfold_object, HnotR. cbn [typeof_object negb orb].
    destruct (r_registry_spec rs st) as (R1 & R2 & R3 & R4).
    destruct (r_registry rs st) as [rid st1]. cbn [fst snd] in R1, R2, R3, R4.
    assert (Hinv0 : copy_inv (next st) [] [] [] st1).
    { split; [exact R1|]. split; [reflexivity|]. split; [intros k vk H; inversion H|].
      split; [intros k b H; discriminate|]. split; [intros k1 k2 b H; discriminate|].
      intros c H. inversion H. }
    destruct (copy_properties_spec (next st) props IH Hlits [] [] [] st1 Hinv0 Hnd)
      as ((I0 & I1 & I2 & I3 & I4 & I5) & C2 & C3 & C4).
    destruct (copy_properties props ([], [], st1)) as [[src children] st2].
    cbn [fst snd app] in I0, I1, I2, I3, I4, I5, C2, C3, C4.
    unfold r_finish.
    set (a := next st2).
    set (px := {| proxySource := src; isArray := arr; reg := rid;
                  _p := match rs with Some (_, p) => p | None => None end |}).
    set (st3 := with_next (S a) (with_proxies (insert a px) st2)).
    assert (Ha3 : proxies st3 !! a = Some px) by (unfold st3; simpl; apply lookup_insert_eq).
    destruct (adopt_children_spec a px children st3 Ha3) as (N & A & R & Z & B).
    { intros c Hc. apply Hdep. rewrite <- I1. rewrite I1. auto. }
    { intros c Hc Hget. specialize (I3 _ _ Hget). unfold a in I3. lia. }
    cbn [fst snd].
    change (next st3) with (S a) in N.
    split; [rewrite N; unfold a; lia|]. split; [|split].
    + intros a' Ha'.
      assert (Hlow : proxies st3 !! a' = proxies st !! a').
      { unfold st3. simpl. rewrite lookup_insert_ne by (unfold a; lia).
        rewrite C3 by lia. now rewrite R2. }
      destruct (proxies st !! a') as [pa|] eqn:Epa.
      * destruct (B a' pa Hlow) as (pa' & h1 & h2 & h3 & h4 & h5 & _); [unfold a; lia|].
        rewrite h1. f_equal. apply proxy_eta; try assumption.
        apply h5. intros c Hc Hget. specialize (I3 _ _ Hget). lia.
      * now apply Z.
    + intros i Hi. rewrite R. unfold st3. simpl. rewrite C4 by lia. now apply R4.
    + exists a, px. cbn [fst snd]. split; [reflexivity|].
      split; [rewrite N; unfold a; lia|]. split; [exact A|]. split; [reflexivity|].
      split; [exact I1|]. split; [reflexivity|]. split; [exact R3|].
      intros k vk Hin. specialize (I2 k vk Hin).
      destruct vk as [| | idk arrk propsk |]; try exact I2.
      destruct I2 as (b & pb & h1 & h2 & h3 & h4 & h5).
      pose proof (I3 _ _ h1) as Hb.
      assert (Hb3 : proxies st3 !! b = Some pb).
      { unfold st3. simpl. rewrite lookup_insert_ne by (unfold a; lia). exact h2. }
      destruct (B b pb Hb3) as (pb' & g1 & g2 & g3 & g4 & _ & g6); [unfold a; lia|].
      exists b, pb'. split; [exact h1|]. split; [unfold a; lia|]. split; [exact g1|].
      split; [congruence|]. split; [congruence|].
      apply g6; [exact h5 | exact h1 |].
      intros c' _ Hc'. exact (I4 _ _ _ Hc' h1).
  - discriminate Hlit.
Qed.

(** Wrapping an object literal: [r] gives a fresh proxy with the
    literal's keys; each nested object literal is replaced by its own
    fresh proxy whose parent link names the key and the root; other values
    are stored as they are; what was in the store is untouched. *)
Theorem r_wraps_children (id : nat) (arr : bool) (props : list (string * jsval))
  (rs : option rstate) (st : state) :
  literal (VObj id arr props) = true ->
  wrapped arr props rs st (r (VObj id arr props) rs st)
  /\ (forall a, a < next st ->
        proxies (r (VObj id arr props) rs st).2 !! a = proxies st !! a)
  /\ (forall i, i < next st ->
        regs (r (VObj id arr props) rs st).2 !! i = regs st !! i).
Proof.
  intros Hlit. destruct (r_ok_all (VObj id arr props) rs st Hlit) as (_ & F1 & F2 & W).
  auto.
Qed.

Lemma r_wraps_children_witness :
  literal sample_object = true
  /\ wrapped false [("count", VPrim (PNum 0));
                    ("user", VObj 2 false [("name", VPrim (PStr "ada"))])]
       None empty_state (r sample_object None empty_state).
Proof.
  split; [vm_compute; reflexivity|].
  apply (r_wraps_children 1 false _ None empty_state). vm_compute. reflexivity.
Defined.

End ReactiveWrap.

(** * State transfer to an object literal *)

Module ReactiveTransfer.
Import Reactive OrderedFacts ReactiveFacts ReactiveFrames ReactiveWrites ReactiveWrap.




End ReactiveTransfer.


(** * The state machine library *)

Module RobotFacts.
Import Robot OrderedFacts.

Section robot_facts.
Context {C P Init : Type}.

Lemma stack_guards (gs : list (guard_fn C P)) (def : guard_fn C P) (c : C)
  (e : option (event P)) :
  stack gs def callBoth c e = def c e && forallb (fun g : guard_fn C P => g c e) gs.
Proof.
  unfold stack. revert def. induction gs as [| g gs IH]; intros def; simpl.
  - now rewrite andb_true_r.
  - rewrite IH. unfold callBoth. now rewrite andb_assoc.
Qed.

Lemma stack_reducers (rs : list (reduce_fn C P)) (def : reduce_fn C P) (c : C)
  (e : option (event P)) :
  stack rs def callForward c e
  = fold_left (fun acc (r : reduce_fn C P) => r acc e) rs (def c e).
Proof.
  unfold stack. revert def. induction rs as [| r rs IH]; intros def; simpl; [reflexivity|].
  now rewrite IH.
Qed.

(** What [transition(from, to, ...args)] and [immediate(to, ...args)]
    make of their arguments: the transition's guard holds exactly when
    every argument made by [guard] holds, and its reducer threads the
    context through the arguments made by [reduce], left to right, each
    given the same event.  Arguments of neither kind, and how guards and
    reducers are interleaved, make no difference. *)
Theorem transition_guards_and_reducers (from : option string) (to : string)
  (args : list (targ C P)) (c : C) (e : option (event P)) :
  guards (makeTransition from to args) c e
  = forallb (fun g : guard_fn C P => g c e) (guard_fns args)
  /\ reducers (makeTransition from to args) c e
     = fold_left (fun acc (r : reduce_fn C P) => r acc e) (reduce_fns args) c.
Proof.
  unfold makeTransition. simpl. now rewrite stack_guards, stack_reducers.
Qed.

(** ** The map of transitions *)

Lemma transitionsToMap_acc (ts : list (transition_obj C P)) :
  forall (m : list (option string * list (transition_obj C P))) (k : option string),
  let m' := fold_left
              (fun m t => alist_set (from t) (default [] (alist_get (from t) m) ++ [t]) m)
              ts m in
  (NoDup (map fst m) -> NoDup (map fst m'))
  /\ alist_get k m'
     = match filter (fun t => from t = k) ts with
       | [] => alist_get k m
       | l => Some (default [] (alist_get k m) ++ l)
       end.
Proof.
  induction ts as [| t ts IH]; intros m k; simpl; [split; [auto | reflexivity]|].
  set (m1 := alist_set (from t) (default [] (alist_get (from t) m) ++ [t]) m).
  destruct (IH m1 k) as [Hnd Hget]. split.
  - intros H. apply Hnd. now apply NoDup_alist_set.
  - rewrite Hget. unfold m1. destruct (decide (from t = k)) as [Heq|Hne].
    + rewrite filter_cons_True by exact Heq. rewrite Heq, alist_get_set_eq. simpl.
      destruct (filter (fun t0 => from t0 = k) ts) as [| x l].
      * reflexivity.
      * now rewrite <- app_assoc.
    + rewrite filter_cons_False by exact Hne. now rewrite alist_get_set_ne by exact Hne.
Qed.

(** [transitionsToMap]: a name is a key exactly when some transition
    leaves from it, and it is mapped to all the transitions with that
    [from], in the order in which they were given; no key occurs twice. *)
Theorem transitionsToMap_groups (ts : list (transition_obj C P)) (k : option string) :
  NoDup (map fst (transitionsToMap ts))
  /\ alist_get k (transitionsToMap ts)
     = match filter (fun t => from t = k) ts with
       | [] => None
       | l => Some l
       end.
Proof.
  destruct (transitionsToMap_acc ts [] k) as [Hnd Hget]. split.
  - apply Hnd. constructor.
  - exact Hget.
Qed.

(** ** Sending an event *)


(** ** Known states *)






(** ** Creating a machine *)

Lemma unknown_targets_spec (sts : list (string * state_obj C P)) (p t : string) :
  (p, t) ∈ unknown_targets sts
  <-> exists st k cands tr,
        (p, st) ∈ sts /\ (k, cands) ∈ transitions st /\ tr ∈ cands
        /\ to tr = t /\ js_in t sts = false.
Proof.
  unfold unknown_targets. rewrite list_elem_of_In, in_flat_map. split.
  - intros ([p' st] & Hin & H). apply list_elem_of_In in Hin.
    apply in_flat_map in H as ([k cands] & Hk & H). apply list_elem_of_In in Hk.
    apply list_elem_of_In, list_elem_of_omap in H as (tr & Htr & H). simpl in *.
    destruct (js_in (to tr) sts) eqn:Ej; [discriminate|]. injection H as <- <-.
    exists st, k, cands, tr. auto.
  - intros (st & k & cands & tr & Hin & Hk & Htr & <- & Hj).
    exists (p, st). split; [now apply list_elem_of_In|].
    apply in_flat_map. exists (k, cands). split; [now apply list_elem_of_In|].
    apply list_elem_of_In, list_elem_of_omap. exists tr. split; [exact Htr|].
    simpl. now rewrite Hj.
Qed.

(** [createMachine(name, states, contextFn)] with the debug checks: it
    returns the machine exactly when [name in states] and every target of
    every transition is [in states] (own keys, or what every object
    inherits); otherwise it throws for the initial state first, and else
    for a transition whose target is unknown, naming its state.  The
    targets of immediate transitions play no part. *)
Theorem createMachine_checks (name : string) (sts : list (string * state_obj C P))
  (contextFn : Init -> option (event P) -> C) :
  match createMachine (Some name) sts contextFn with
  | inr m =>
      m = {| current := name; states := sts; context := contextFn |}
      /\ js_in name sts = true
      /\ (forall p st k cands t,
            (p, st) ∈ sts -> (k, cands) ∈ transitions st -> t ∈ cands ->
            js_in (to t) sts = true)
  | inl (InitialUnknown c) => c = name /\ js_in name sts = false
  | inl (UnknownState p t) =>
      js_in name sts = true /\ js_in t sts = false
      /\ exists st k cands tr,
           (p, st) ∈ sts /\ (k, cands) ∈ transitions st /\ tr ∈ cands /\ to tr = t
  | inl _ => False
  end.
Proof.
  unfold createMachine, _create. destruct (js_in name sts) eqn:Ej; simpl; [|auto].
  destruct (unknown_targets sts) as [| [p t] rest] eqn:Eu.
  - split; [reflexivity|]. split; [reflexivity|].
    intros p st k cands t Hin Hk Ht. destruct (js_in (to t) sts) eqn:Et; [reflexivity|].
    assert (H : (p, to t) ∈ unknown_targets sts).
    { apply unknown_targets_spec. exists st, k, cands, t. auto. }
    rewrite Eu in H. inversion H.
  - assert (H : (p, t) ∈ unknown_targets sts) by (rewrite Eu; left).
    apply unknown_targets_spec in H as (st & k & cands & tr & h1 & h2 & h3 & h4 & h5).
    split; [reflexivity|]. split; [exact h5|]. exists st, k, cands, tr. auto.
Qed.

(** ** Immediate transitions that form a cycle *)

(** No protection against cycles: when two states each start their
    immediate transitions with one to the other whose guards always hold,
    a transition into either never returns -- at no recursion depth does
    [transitionTo] come back. *)
Theorem immediate_cycle_diverges (m : machine C P Init) (a b : string)
  (sa sb : state_obj C P) (ta tb : transition_obj C P)
  (resta restb : list (transition_obj C P)) :
  alist_get a (states m) = Some sa -> immediates sa = ta :: resta ->
  (forall c e, guards ta c e = true) -> to ta = b ->
  alist_get b (states m) = Some sb -> immediates sb = tb :: restb ->
  (forall c e, guards tb c e = true) -> to tb = a ->
  forall (fuel : nat) (ctx : C) (name : string) (ev : option (event P))
         (t : transition_obj C P) (rest : list (transition_obj C P)),
    guards t ctx ev = true -> to t = a ->
    transitionTo fuel ctx (with_current name m) ev (t :: rest) = Diverged.
Proof.
  intros Ha Hia Hga Hta Hb Hib Hgb Htb fuel.
  assert (H : forall ctx name ev t rest,
            guards t ctx ev = true -> (to t = a \/ to t = b) ->
            transitionTo fuel ctx (with_current name m) ev (t :: rest) = Diverged).
  { induction fuel as [| fuel IH]; intros ctx name ev t rest Hg Hto; [reflexivity|].
    cbn [transitionTo List.find]. rewrite Hg. cbv zeta. cbn [states with_current].
    destruct Hto as [Hto | Hto]; rewrite Hto.
    - rewrite Ha, Hia.
      change (with_current a (with_current name m)) with (with_current a m).
      rewrite (IH _ a ev ta resta (Hga _ _)); [reflexivity | right; exact Hta].
    - rewrite Hb, Hib.
      change (with_current b (with_current name m)) with (with_current b m).
      rewrite (IH _ b ev tb restb (Hgb _ _)); [reflexivity | left; exact Htb]. }
  intros ctx name ev t rest Hg Hto. apply H; [exact Hg | now left].
Qed.

End robot_facts.




Lemma immediate_cycle_diverges_witness :
  transitionTo 50 0%Z bounce_machine (Some (EvName "go"))
    [makeTransition (Some "go") "ping" []] = Diverged.
Proof.
  apply (immediate_cycle_diverges (Init := unit) bounce_machine "ping" "pong"
           (state [immediate "pong" []]) (state [immediate "ping" []])
           (makeTransition None "pong" []) (makeTransition None "ping" []) [] []
           eq_refl eq_refl (fun _ _ => eq_refl) eq_refl
           eq_refl eq_refl (fun _ _ => eq_refl) eq_refl
           50 0%Z "idle" (Some (EvName "go")));
    reflexivity.
Defined.

End RobotFacts.

(** * The stopwatch display *)

Module TimerFacts.

Lemma length_append (a b : string) :
  String.length (a +:+ b) = String.length a + String.length b.
Proof.
  induction a as [| ch a IH]; [reflexivity|].
  change (S (String.length (a +:+ b)) = S (String.length a + String.length b)).
  now rewrite IH.
Qed.

Lemma pad_two_digits (n : Z) :
  (0 <= n < 100)%Z -> String.length (Timer.pad_1 n "0") = 2.
Proof.
  intros H.
  assert (Hall : forallb (fun k => (String.length (Timer.pad_1 (Z.of_nat k) "0") =? 2)%nat)
                   (seq 0 100) = true) by (vm_compute; reflexivity).
  rewrite forallb_forall in Hall.
  specialize (Hall (Z.to_nat n)). rewrite Z2Nat.id in Hall by lia.
  apply Nat.eqb_eq, Hall, in_seq. lia.
Qed.

Lemma pad_three_digits (n : Z) :
  (100 <= n < 1000)%Z -> String.length (Timer.pad_1 n "0") = 3.
Proof.
  intros H.
  assert (Hall : forallb (fun k => (String.length (Timer.pad_1 (Z.of_nat (100 + k)) "0") =? 3)%nat)
                   (seq 0 900) = true) by (vm_compute; reflexivity).
  rewrite forallb_forall in Hall.
  specialize (Hall (Z.to_nat n - 100)).
  replace (Z.of_nat (100 + (Z.to_nat n - 100))) with n in Hall by lia.
  apply Nat.eqb_eq, Hall, in_seq. lia.
Qed.

(** The four numbers the stopwatch shows, for a time that has not gone
    backwards: hours below 24, minutes and seconds below 60, milliseconds
    below 1000, and together they are the elapsed time modulo one day --
    the display starts over after 24 hours. *)
Theorem time_fields_decompose (t : Z) :
  (0 <= t)%Z ->
  let h := Timer.time_field Timer.hour 24 t in
  let m := Timer.time_field Timer.min 60 t in
  let s := Timer.time_field Timer.sec 60 t in
  let ms := Timer.time_field 1 1000 t in
  (0 <= h < 24 /\ 0 <= m < 60 /\ 0 <= s < 60 /\ 0 <= ms < 1000)%Z
  /\ (h * Timer.hour + m * Timer.min + s * Timer.sec + ms = t mod (24 * Timer.hour))%Z.
Proof.
  intros Ht h m s ms. subst h m s ms. unfold Timer.time_field, Timer.hour, Timer.min, Timer.sec.
  rewrite !Z.rem_mod_nonneg by (try apply Z.div_pos; lia).
  change (60 * (60 * 1000))%Z with 3600000%Z. change (60 * 1000)%Z with 60000%Z.
  change (24 * 3600000)%Z with 86400000%Z.
  rewrite Z.div_1_r.
  Z.to_euclidean_division_equations. lia.
Qed.

(** The text the stopwatch shows when the clock has not gone backwards:
    hours, minutes and seconds as two characters each, separated by
    colons, then the milliseconds, which [padStart(2, ...)] brings to two
    characters below 100 and leaves at three from 100 on -- so the display
    is 11 or 12 characters wide. *)
Theorem display_shape (start now : Z) :
  (start <= now)%Z ->
  exists hh mm ss ms,
    Timer.update_1 start now
    = ((now - start)%Z, hh +:+ ":" +:+ mm +:+ ":" +:+ ss +:+ ":" +:+ ms)
    /\ String.length hh = 2 /\ String.length mm = 2 /\ String.length ss = 2
    /\ String.length ms
       = (if (Timer.time_field 1 1000 (now - start) <? 100)%Z then 2 else 3)
    /\ String.length (Timer.update_1 start now).2
       = (if (Timer.time_field 1 1000 (now - start) <? 100)%Z then 11 else 12).
Proof.
  intros Hle.
  destruct (time_fields_decompose (now - start)) as [(Hh & Hm & Hs & Hms) _]; [lia|].
  cbv zeta in Hh, Hm, Hs, Hms.
  exists (Timer.makeTimeFormat_1 Timer.hour 24 (now - start)),
         (Timer.makeTimeFormat_1 Timer.min 60 (now - start)),
         (Timer.makeTimeFormat_1 Timer.sec 60 (now - start)),
         (Timer.makeTimeFormat_1 1 1000 (now - start)).
  assert (L1 := pad_two_digits _ (conj (proj1 Hh) (Z.lt_trans _ _ 100 (proj2 Hh) eq_refl))).
  assert (L2 := pad_two_digits _ (conj (proj1 Hm) (Z.lt_trans _ _ 100 (proj2 Hm) eq_refl))).
  assert (L3 := pad_two_digits _ (conj (proj1 Hs) (Z.lt_trans _ _ 100 (proj2 Hs) eq_refl))).
  assert (L4 : String.length (Timer.makeTimeFormat_1 1 1000 (now - start))
               = (if (Timer.time_field 1 1000 (now - start) <? 100)%Z then 2 else 3)).
  { unfold Timer.makeTimeFormat_1.
    destruct (Timer.time_field 1 1000 (now - start) <? 100)%Z eqn:E.
    - apply pad_two_digits. apply Z.ltb_lt in E. lia.
    - apply pad_three_digits. apply Z.ltb_ge in E. lia. }
  split; [reflexivity|]. do 4 (split; [assumption|]).
  unfold Timer.update_1, Timer.getTimeDisplays_1, Timer.timeFormats_1. cbn [map snd].
  rewrite !length_append, L4. unfold Timer.makeTimeFormat_1 at 1 2 3. rewrite L1, L2, L3.
  destruct (Timer.time_field 1 1000 (now - start) <? 100)%Z; reflexivity.
Qed.

Lemma time_fields_decompose_witness :
  (Timer.time_field Timer.hour 24 90123004 = 1
   /\ Timer.time_field Timer.min 60 90123004 = 2
   /\ Timer.time_field Timer.sec 60 90123004 = 3
   /\ Timer.time_field 1 1000 90123004 = 4)%Z
  /\ (1 * Timer.hour + 2 * Timer.min + 3 * Timer.sec + 4 = 90123004 mod (24 * Timer.hour))%Z.
Proof.
  split; [repeat split; reflexivity|].
  destruct (time_fields_decompose 90123004) as [_ H]; [lia|]. exact H.
Defined.

Lemma display_shape_witness :
  Timer.update_1 1000 3724004 = (3723004%Z, "01:02:03:04")
  /\ Timer.update_1 1000 3724123 = (3723123%Z, "01:02:03:123")
  /\ String.length (Timer.update_1 1000 3724123).2 = 12.
Proof.
  split; [vm_compute; reflexivity|]. split; [vm_compute; reflexivity|].
  destruct (display_shape 1000 3724123) as (hh & mm & ss & ms & _ & _ & _ & _ & _ & H); [lia|].
  exact H.
Defined.

End TimerFacts.

(** * The terminal's commands *)

Module TerminalFacts.
Import Terminal.

Lemma findIndex_from_spec {A : Type} (f : A -> bool) (l : list A) : forall i,
  (0 <= i)%Z ->
  (Forall (fun x => f x = false) l /\ findIndex_from f l i = (-1)%Z)
  \/ (exists pre a post,
        l = pre ++ a :: post /\ Forall (fun x => f x = false) pre /\ f a = true
        /\ findIndex_from f l i = (i + Z.of_nat (length pre))%Z).
Proof.
  induction l as [| x rest IH]; intros i Hi.
  - left. split; [constructor | reflexivity].
  - simpl. destruct (f x) eqn:E.
    + right. exists [], x, rest. simpl. split; [reflexivity|].
      split; [constructor|]. split; [exact E | lia].
    + destruct (IH (i + 1)%Z) as [[Hall Hm] | (pre & a & post & -> & Hpre & Ha & Hidx)];
        [lia | |].
      * left. split; [constructor; assumption | exact Hm].
      * right. exists (x :: pre), a, post. split; [reflexivity|].
        split; [constructor; assumption|]. split; [exact Ha|].
        rewrite Hidx. simpl length. lia.
Qed.

(** [stop] ends the one app of that name that was started first: its
    timer is cleared, its entry leaves [runningApps], every other entry,
    later ones of the same name included, stays in place.  With no such app
    nothing changes and the answer is the error message.  [stop] never
    throws. *)
Theorem stop_ends_the_first {D : Type} (now n : string) (h : host D) :
  (n ∈ map name (runningApps h) ->
   exists pre a post,
     runningApps h = pre ++ a :: post
     /\ name a = n
     /\ (n ∉ map name pre)
     /\ stop now (Some n) h
        = Some (RString ("Stopped app: " +:+ n),
                {| runningApps := pre ++ post; cleared := cleared h ++ [interval a] |}))
  /\ ((n ∉ map name (runningApps h)) ->
      stop now (Some n) h
      = Some (RMessage ("Cannot stop unknown app: " +:+ n) "error" now, h)).
Proof.
  unfold stop, findIndex.
  destruct (findIndex_from_spec (fun a : running D => bool_decide (Some (name a) = Some n))
              (runningApps h) 0 (Z.le_refl 0))
    as [[Hall Hm] | (pre & a & post & Hl & Hpre & Ha & Hidx)].
  - assert (Hnot : n ∉ map name (runningApps h)).
    { intros Hin. apply list_elem_of_fmap in Hin as (a & -> & Ha).
      rewrite Forall_forall in Hall. specialize (Hall a Ha).
      apply bool_decide_eq_false in Hall. now apply Hall. }
    split; [intros Hin; contradiction|]. intros _. rewrite Hm. reflexivity.
  - apply bool_decide_eq_true in Ha. injection Ha as Ha.
    assert (Hpre' : n ∉ map name pre).
    { intros Hin. apply list_elem_of_fmap in Hin as (b & -> & Hb).
      rewrite Forall_forall in Hpre. specialize (Hpre b Hb).
      apply bool_decide_eq_false in Hpre. now apply Hpre. }
    split.
    + intros _. exists pre, a, post. split; [exact Hl|]. split; [exact Ha|].
      split; [exact Hpre'|].
      rewrite Hidx. replace (-1 <? 0 + Z.of_nat (length pre))%Z with true
        by (symmetry; apply Z.ltb_lt; lia).
      replace (Z.to_nat (0 + Z.of_nat (length pre))) with (length pre) by lia.
      rewrite Hl. rewrite list_lookup_middle by reflexivity.
      unfold splice_one.
      replace (Z.to_nat (0 + Z.of_nat (length pre))) with (length pre) by lia.
      rewrite take_app_length.
      change (pre ++ a :: post) with (pre ++ [a] ++ post).
      rewrite app_assoc.
      replace (S (length pre)) with (length (pre ++ [a])) by (rewrite length_app; simpl; lia).
      rewrite drop_app_length. reflexivity.
    + intros Hnot. exfalso. apply Hnot. rewrite Hl, map_app. apply elem_of_app. right.
      simpl. rewrite Ha. now left.
Qed.

(** With two clocks running, [stop clock] ends the first one. *)
Lemma stop_ends_the_first_witness :
  stop "now" (Some "clock") three_running
  = Some (RString "Stopped app: clock",
          {| runningApps := [Running "timer" 2 tt; Running "clock" 3 tt]; cleared := [1] |})
  /\ stop "now" (Some "roll") three_running
     = Some (RMessage "Cannot stop unknown app: roll" "error" "now", three_running).
Proof.
  destruct (stop_ends_the_first "now" "clock" three_running) as [H _].
  destruct H as (pre & a & post & Hl & Ha & Hpre & Hs);
    [vm_compute; repeat constructor|].
  split.
  - vm_compute. reflexivity.
  - apply (stop_ends_the_first "now" "roll" three_running).
    vm_compute. intros H. repeat (apply elem_of_cons in H as [H | H]; [discriminate|]).
    inversion H.
Defined.

(** What [handleEvalResult] makes of a result: exactly one line is added
    after the earlier output, which is kept; a string result is shown as
    output with the current time and clears [next] and [error]; a message
    is shown with its own time stamp and hands on its [next]; the line is an
    error line exactly when [next] is [error], and then [error] holds the
    text shown, otherwise [error] is cleared. *)
Theorem eval_result_line (now : string) (out : list line) (r : result) (ev : evaluation) :
  handleEvalResult now out r = Some ev ->
  exists ln,
    output ev = out ++ [ln]
    /\ (type ln = "error" <-> next ev = Some "error")
    /\ error ev = (if String.eqb (type ln) "error" then Some (display ln) else None)
    /\ match r with
       | RString s => display ln = s /\ timestamp ln = now /\ next ev = None
       | RMessage m nx ts => display ln = m /\ timestamp ln = ts /\ next ev = Some nx
       | RUndefined => False
       end.
Proof.
  destruct r as [s | m nx ts |]; simpl; [| |discriminate].
  - intros [= <-]. eexists. split; [reflexivity|]. simpl.
    split; [split; discriminate|]. auto.
  - destruct (String.eqb nx "error") eqn:E; intros [= <-]; eexists;
      (split; [reflexivity|]); simpl.
    + apply String.eqb_eq in E. subst nx. repeat split; reflexivity.
    + apply String.eqb_neq in E. split; [|auto].
      split; [discriminate | intros [= H]; contradiction].
Qed.

(** Stopping an app that does not run shows an error line. *)
Lemma eval_result_line_witness :
  exists ev ln,
    (stop "12:00" (Some "roll") three_running ≫= fun rh => handleEvalResult "12:01" [] rh.1)
    = Some ev
    /\ output ev = [ln]
    /\ display ln = "Cannot stop unknown app: roll"
    /\ type ln = "error"
    /\ next ev = Some "error".
Proof.
  eexists _. 
  destruct (eval_result_line "12:01" [] (RMessage "Cannot stop unknown app: roll" "error" "12:00")
              _ eq_refl) as (ln & H1 & H2 & _ & H4 & _ & H5).
  exists ln. split; [vm_compute; reflexivity|]. split; [exact H1|]. split; [exact H4|].
  split; [apply H2; exact H5 | exact H5].
Defined.

End TerminalFacts.
